(** * sipnet: the connection engine of go-sip (sipnet/connection.go)

    A shallow embedding of [Conn] and of the tasks that run on it: the
    blocking read/write API, the exclusive read gate, the internal
    dispatcher [readRequest], the UDP and TCP transport readers and the
    branch janitor.

    Conventions of the embedding.
    - A Go channel is a FIFO buffer with a capacity and a closed flag;
      a channel operation that cannot complete yet yields [Block], one
      that panics yields [Panic].
    - A byte slice keeps the storage behind it, because Go bounds a
      slice expression [s[:n]] by the capacity of [s], not its length.
    - The network, the clock and the message parser are outside the
      file: the result of a socket call and a clock reading are
      arguments of the operation that makes the call, and the parser is
      the interface [Parser].
    - What a task does to the outside world (datagrams handed to the
      socket, registry deregistrations, channel and socket closes) is
      appended to the [log] of the world, so that effects can be
      counted. *)

From Stdlib Require Import ZArith Lia List Strings.Byte String.
From stdpp Require Import gmap strings list fin_maps.

Module sipnet.

Local Open Scope Z_scope.

(** ** Bytes *)

#[global] Instance byte_eq_decision : EqDecision byte := byte_eq_dec.

(** [bytes.Compare]: lexicographic comparison, -1, 0 or +1. *)
Fixpoint bytes_Compare (a b : list byte) : Z :=
  match a, b with
  | [], [] => 0
  | [], _ :: _ => -1
  | _ :: _, [] => 1
  | x :: a', y :: b' =>
      match N.compare (Byte.to_N x) (Byte.to_N y) with
      | Lt => -1
      | Gt => 1
      | Eq => bytes_Compare a' b'
      end
  end.

(** [[]byte("\r\n\r\n")], [[]byte("\r\n")] and [[]byte("SIP")]. *)
Definition CR : byte := x0d.
Definition LF : byte := x0a.
Definition keepalive_probe : list byte := [CR; LF; CR; LF].
Definition keepalive_reply : list byte := [CR; LF].
Definition SIP_prefix : list byte := list_byte_of_string "SIP".

(** A Go byte slice: [arr] is the storage from the slice's first byte
    to the end of its backing array (so [cap = length arr]) and [len]
    the slice length. *)
Record slice := Slice { arr : list byte; len : nat }.

Definition slice_cap (s : slice) : nat := length (arr s).
Definition slice_bytes (s : slice) : list byte := take (len s) (arr s).
Definition slice_wf (s : slice) : Prop := (len s <= slice_cap s)%nat.

(** [[]byte(lit)] and [make([]byte, n)] style slices: no spare capacity. *)
Definition slice_of (b : list byte) : slice := Slice b (length b).

(** The slice expression [s[:n]]: in range when [n <= cap(s)], a
    run-time panic ([None]) otherwise. *)
Definition slice_to (s : slice) (n : nat) : option (list byte) :=
  if (n <=? slice_cap s)%nat then Some (take n (arr s)) else None.

(** ** Errors *)

(** The sentinel errors the file compares against, [net.ErrClosed] for a
    read on a closed socket, and any other error value. *)
Inductive error :=
  | EOF
  | ErrUnexpectedEOF
  | ErrClosedPipe
  | ErrNetClosed
  | ErrOther (msg : string).

#[global] Instance error_eq_decision : EqDecision error.
Proof. solve_decision. Defined.

(** ** Channels *)

Record chan (A : Type) := Chan { buf : list A; cap : nat; chclosed : bool }.
Arguments Chan {A} _ _ _.
Arguments buf {A} _.
Arguments cap {A} _.
Arguments chclosed {A} _.

Inductive recv_result (A : Type) :=
  | RecvOk (a : A) (c : chan A)
  | RecvClosed
  | RecvBlock.
Arguments RecvOk {A} _ _.
Arguments RecvClosed {A}.
Arguments RecvBlock {A}.

(** [v, more := <-c]: buffered values are still delivered after a close;
    an empty closed channel yields [more = false]; an empty open one
    blocks. *)
Definition recv {A} (c : chan A) : recv_result A :=
  match buf c with
  | a :: rest => RecvOk a (Chan rest (cap c) (chclosed c))
  | [] => if chclosed c then RecvClosed else RecvBlock
  end.

Inductive send_result (A : Type) :=
  | SendOk (c : chan A)
  | SendPanic
  | SendBlock.
Arguments SendOk {A} _.
Arguments SendPanic {A}.
Arguments SendBlock {A}.

(** [c <- a]: panics on a closed channel, blocks while the buffer is
    full, appends at the tail otherwise. *)
Definition send {A} (c : chan A) (a : A) : send_result A :=
  if chclosed c then SendPanic
  else if (length (buf c) <? cap c)%nat
       then SendOk (Chan (buf c ++ [a]) (cap c) false)
       else SendBlock.

(** [close(c)]: panics ([None]) when [c] is closed already. *)
Definition close {A} (c : chan A) : option (chan A) :=
  if chclosed c then None else Some (Chan (buf c) (cap c) true).

(** ** Time *)

Definition Second : Z := 1000000000.
Definition maxDuration : Z := 2 ^ 63 - 1.
Definition minDuration : Z := - 2 ^ 63.

(** [t.Sub(u)] on instants counted in nanoseconds: the difference,
    saturated to the range of a [Duration] (an int64). *)
Definition Sub (t u : Z) : Z :=
  if maxDuration <? t - u then maxDuration
  else if t - u <? minDuration then minDuration
  else t - u.

(** ** Byte sources and the message parser *)

(** An [io.Reader]: the bytes it will deliver and what a read past them
    reports ([None]: it blocks). *)
Record Reader := MkReader { data : list byte; after : option error }.

(** [bytes.NewReader(b)] *)
Definition NewReader (b : list byte) : Reader := MkReader b (Some EOF).

(** The message parser ([ReadRequest], [ReadResponse]) is not part of
    connection.go. A call returns the decoded value or an error,
    together with the number of bytes it took from the reader. *)
Class Parser := {
  Request : Type;
  Response : Type;
  ReadRequest : Reader -> (error + Request) * nat;
  ReadResponse : Reader -> (error + Response) * nat
}.

(** A value travelling through [readMessage] (an [interface{}]): a
    [*Request], a [*Response] or an [error]. *)
Inductive message {P : Parser} :=
  | MRequest (r : Request)
  | MResponse (r : Response)
  | MError (e : error).

(** ** The connection *)

(** [net.Conn]: [rx] are the bytes still to arrive on the stream,
    [rx_end] what a read reports once they are used up ([None]: the read
    blocks), [is_udp] whether the dynamic type is [*net.UDPConn]. *)
Record Socket := MkSocket {
  rx : list byte;
  rx_end : option error;
  sock_closed : bool;
  is_udp : bool
}.

(** The part of [Listener] that connection.go touches: [udpPool], from
    an address string to a connection handle. *)
Record Listener := MkListener { udpPool : gmap string nat }.

Record Conn {P : Parser} := MkConn {
  transport : string;
  listener : option nat;
  conn : Socket;
  address : string;
  udpReceiver : chan slice;
  closed : bool;
  locked : bool;
  writeBuffer : list byte;
  readMessage : chan message;
  lastMessage : Z;
  receivedBranches : gmap string Z;
  branchMutex : bool
}.

(** Effects on the world outside the connection. *)
Inductive Event :=
  | EvWriteTo (addr : string) (payload : list byte)
  | EvConnWrite (payload : list byte)
  | EvDeregister (l : nat) (addr : string)
  | EvCloseReceiver
  | EvConnClose
  | EvPrintln (text : string).

#[global] Instance Event_eq_decision : EqDecision Event.
Proof. solve_decision. Defined.

(** The world: the connection [self], the listeners it may point to
    (shared with the other connections of a listener) and the effect
    log. *)
Record World {P : Parser} := MkWorld {
  self : Conn;
  listeners : gmap nat Listener;
  log : list Event
}.

Inductive outcome {P : Parser} (A : Type) :=
  | Ret (a : A) (w : World)
  | Block
  | Panic.
Arguments Ret {_ A} _ _.
Arguments Block {_ A}.
Arguments Panic {_ A}.

Section Setters.
Context {P : Parser}.

Definition set_conn (s : Socket) (c : Conn) : Conn :=
  MkConn _ (transport c) (listener c) s (address c) (udpReceiver c) (closed c)
    (locked c) (writeBuffer c) (readMessage c) (lastMessage c)
    (receivedBranches c) (branchMutex c).
Definition set_udpReceiver (ch : chan slice) (c : Conn) : Conn :=
  MkConn _ (transport c) (listener c) (conn c) (address c) ch (closed c)
    (locked c) (writeBuffer c) (readMessage c) (lastMessage c)
    (receivedBranches c) (branchMutex c).
Definition set_closed (b : bool) (c : Conn) : Conn :=
  MkConn _ (transport c) (listener c) (conn c) (address c) (udpReceiver c) b
    (locked c) (writeBuffer c) (readMessage c) (lastMessage c)
    (receivedBranches c) (branchMutex c).
Definition set_locked (b : bool) (c : Conn) : Conn :=
  MkConn _ (transport c) (listener c) (conn c) (address c) (udpReceiver c)
    (closed c) b (writeBuffer c) (readMessage c) (lastMessage c)
    (receivedBranches c) (branchMutex c).
Definition set_writeBuffer (b : list byte) (c : Conn) : Conn :=
  MkConn _ (transport c) (listener c) (conn c) (address c) (udpReceiver c)
    (closed c) (locked c) b (readMessage c) (lastMessage c)
    (receivedBranches c) (branchMutex c).
Definition set_readMessage (ch : chan message) (c : Conn) : Conn :=
  MkConn _ (transport c) (listener c) (conn c) (address c) (udpReceiver c)
    (closed c) (locked c) (writeBuffer c) ch (lastMessage c)
    (receivedBranches c) (branchMutex c).
Definition set_lastMessage (t : Z) (c : Conn) : Conn :=
  MkConn _ (transport c) (listener c) (conn c) (address c) (udpReceiver c)
    (closed c) (locked c) (writeBuffer c) (readMessage c) t
    (receivedBranches c) (branchMutex c).
Definition set_receivedBranches (m : gmap string Z) (c : Conn) : Conn :=
  MkConn _ (transport c) (listener c) (conn c) (address c) (udpReceiver c)
    (closed c) (locked c) (writeBuffer c) (readMessage c) (lastMessage c)
    m (branchMutex c).

(** Update of the connection inside the world, and logging. *)
Definition upd (f : Conn -> Conn) (w : World) : World :=
  MkWorld _ (f (self w)) (listeners w) (log w).
Definition emit (e : Event) (w : World) : World :=
  MkWorld _ (self w) (listeners w) (log w ++ [e]).
Definition set_listeners (ls : gmap nat Listener) (w : World) : World :=
  MkWorld _ (self w) ls (log w).

End Setters.

Section Engine.
Context {P : Parser}.

(** ** Read, Lock, Unlock *)

(** Lines 36-41 of [Read]: the receive a reader is parked on once it
    has passed the [closed] test. *)
Definition Read_recv (w : World) : outcome message :=
  match recv (readMessage (self w)) with
  | RecvOk msg ch => Ret msg (upd (set_readMessage ch) w)
  | RecvClosed => Ret (MError EOF) w
  | RecvBlock => Block
  end.

Definition Read (w : World) : outcome message :=
  if closed (self w) then Ret (MError EOF) w else Read_recv w.

Definition Lock (w : World) : World := upd (set_locked true) w.
Definition Unlock (w : World) : World := upd (set_locked false) w.

(** ** Write, Flush *)

Definition Write (b : list byte) (w : World) : (Z * option error) * World :=
  if closed (self w) then ((0, Some ErrClosedPipe), w)
  else ((Z.of_nat (length b), None),
        upd (set_writeBuffer (writeBuffer (self w) ++ b)) w).

(** [io] is the error that the socket write reports ([None]: nil). The
    type assertion [c.conn.( *net.UDPConn)] panics on another socket. *)
Definition Flush (io : option error) (w : World) : outcome (option error) :=
  if closed (self w) then Ret (Some ErrClosedPipe) w
  else if String.eqb (transport (self w)) "udp" then
    if is_udp (conn (self w)) then
      Ret io (upd (set_writeBuffer [])
                (emit (EvWriteTo (address (self w)) (writeBuffer (self w))) w))
    else Panic
  else
    Ret io (upd (set_writeBuffer [])
              (emit (EvConnWrite (writeBuffer (self w))) w)).

Definition Transport (w : World) : string := transport (self w).
Definition Addr (w : World) : string := address (self w).

(** ** Close *)

(** [delete(c.listener.udpPool, c.address.String())] under the pool
    mutex. *)
Definition deregister (l : nat) (addr : string) (w : World) : World :=
  emit (EvDeregister l addr)
    (set_listeners
       (alter (fun L => MkListener (delete addr (udpPool L))) l (listeners w)) w).

(** [io] is what [c.conn.Close()] reports on the TCP path. *)
Definition Close (io : option error) (w : World) : outcome (option error) :=
  if closed (self w) then Ret None w
  else
    let w1 := upd (set_closed true) w in
    if String.eqb (transport (self w1)) "udp" then
      let w2 := match listener (self w1) with
                | Some l => deregister l (address (self w1)) w1
                | None => w1
                end in
      match close (udpReceiver (self w2)) with
      | Some ch => Ret None (emit EvCloseReceiver (upd (set_udpReceiver ch) w2))
      | None => Panic
      end
    else
      let s := conn (self w1) in
      Ret io (emit EvConnClose
                (upd (set_conn (MkSocket (rx s) (rx_end s) true (is_udp s))) w1)).

(** ** The internal dispatcher *)

(** Program points of [readRequest]: the head of the loop, the wait on
    [locked], the receive, and the point after the receive where [msg]
    is held in hand. *)
Inductive rr_pc :=
  | RRtop
  | RRwait
  | RRrecv
  | RRgot (msg : message).

Inductive rr_result :=
  | RRreturn (r : error + Request) (w : World)
  | RRgoto (pc : rr_pc) (w : World)
  | RRblock
  | RRpanic.

Definition warning : string :=
  "warning: unhandled message type (likely a response)".

Definition readRequest_step (pc : rr_pc) (w : World) : rr_result :=
  match pc with
  | RRtop =>
      if closed (self w) then RRreturn (inl EOF) w else RRgoto RRwait w
  | RRwait =>
      (* time.Sleep(2s) between two tests of [locked] *)
      if locked (self w) then RRgoto RRwait w else RRgoto RRrecv w
  | RRrecv =>
      match recv (readMessage (self w)) with
      | RecvOk msg ch => RRgoto (RRgot msg) (upd (set_readMessage ch) w)
      | RecvClosed => RRreturn (inl EOF) w
      | RecvBlock => RRblock
      end
  | RRgot msg =>
      if locked (self w) then
        match send (readMessage (self w)) msg with
        | SendOk ch => RRgoto RRtop (upd (set_readMessage ch) w)
        | SendPanic => RRpanic
        | SendBlock => RRblock
        end
      else
        match msg with
        | MError e => RRreturn (inl e) w
        | MRequest r => RRreturn (inr r) w
        | MResponse _ => RRgoto RRtop (emit (EvPrintln warning) w)
        end
  end.

(** [readRequest] run on its own (no other task takes a step in
    between), for at most [fuel] steps. *)
Fixpoint readRequest_from (fuel : nat) (pc : rr_pc) (w : World) : rr_result :=
  match fuel with
  | O => RRgoto pc w
  | S fuel' =>
      match readRequest_step pc w with
      | RRgoto pc' w' => readRequest_from fuel' pc' w'
      | r => r
      end
  end.

Definition readRequest (fuel : nat) (w : World) : rr_result :=
  readRequest_from fuel RRtop w.

(** ** Transport readers *)

Inductive task_result :=
  | Continue (w : World)
  | Exit (w : World)
  | Blocked
  | Panicked.

(** [c.readMessage <- m] followed by [continue]. *)
Definition enqueue (m : message) (w : World) : task_result :=
  match send (readMessage (self w)) m with
  | SendOk ch => Continue (upd (set_readMessage ch) w)
  | SendPanic => Panicked
  | SendBlock => Blocked
  end.

Definition response_unit (r : error + Response) : message :=
  match r with inl err => MError err | inr resp => MResponse resp end.
Definition request_unit (r : error + Request) : message :=
  match r with inl err => MError err | inr req => MRequest req end.

(** One iteration of the loop of [udpReader]; [now] is the reading of
    [time.Now()]. *)
Definition udpReader_step (now : Z) (w : World) : task_result :=
  match recv (udpReceiver (self w)) with
  | RecvClosed => Exit w
  | RecvBlock => Blocked
  | RecvOk received ch =>
      let w1 := upd (set_lastMessage now) (upd (set_udpReceiver ch) w) in
      if bytes_Compare (slice_bytes received) keepalive_probe =? 0 then
        (* Acknowledge keep alive *)
        Continue (snd (Write keepalive_reply w1))
      else
        let rd := NewReader (slice_bytes received) in
        match slice_to received 3 with
        | None => Panicked
        | Some prefix =>
            if bytes_Compare prefix SIP_prefix =? 0
            then enqueue (response_unit (fst (ReadResponse rd))) w1
            else enqueue (request_unit (fst (ReadRequest rd))) w1
        end
  end.

Definition writeReceivedUDP (b : slice) (w : World) : outcome unit :=
  if closed (self w) then Ret tt w
  else match send (udpReceiver (self w)) b with
       | SendOk ch => Ret tt (upd (set_udpReceiver ch) w)
       | SendPanic => Panic
       | SendBlock => Block
       end.

Inductive readfull_result :=
  | RFok (b : list byte) (s : Socket)
  | RFerr (b : list byte) (e : error) (s : Socket)
  | RFblock.

Definition drain (s : Socket) : Socket :=
  MkSocket [] (rx_end s) (sock_closed s) (is_udp s).

(** [io.ReadFull(c.conn, buf)] with [len(buf) = n]: the bytes read
    before an error are reported with it; an end of stream after at
    least one byte becomes [ErrUnexpectedEOF]. *)
Definition ReadFull (s : Socket) (n : nat) : readfull_result :=
  if sock_closed s then RFerr [] ErrNetClosed s
  else if (n <=? length (rx s))%nat then
    RFok (take n (rx s))
         (MkSocket (drop n (rx s)) (rx_end s) (sock_closed s) (is_udp s))
  else match rx_end s with
       | None => RFblock
       | Some EOF =>
           match rx s with
           | [] => RFerr [] EOF s
           | _ => RFerr (rx s) ErrUnexpectedEOF (drain s)
           end
       | Some e => RFerr (rx s) e (drain s)
       end.

(** [buf := make([]byte, 3)] after a read that filled [b]. *)
Definition fill3 (b : list byte) : list byte :=
  take 3 (b ++ replicate 3 x00).

(** [io.MultiReader(bytes.NewReader(buf), c.conn)] *)
Definition MultiReader (b : list byte) (s : Socket) : Reader :=
  if sock_closed s then MkReader b (Some ErrNetClosed)
  else MkReader (b ++ rx s) (rx_end s).

(** The stream after the parser took [used] bytes from the multi-reader
    whose first [n] bytes were already off the socket. *)
Definition advance (used n : nat) (s : Socket) : Socket :=
  MkSocket (drop (used - n) (rx s)) (rx_end s) (sock_closed s) (is_udp s).

(** Lines 133-151: dispatch on the sniffed bytes and enqueue. *)
Definition tcp_decode (b : list byte) (w : World) : task_result :=
  let rd := MultiReader b (conn (self w)) in
  if bytes_Compare b SIP_prefix =? 0 then
    let r := ReadResponse rd in
    enqueue (response_unit (fst r))
      (upd (set_conn (advance (snd r) (length b) (conn (self w)))) w)
  else
    let r := ReadRequest rd in
    enqueue (request_unit (fst r))
      (upd (set_conn (advance (snd r) (length b) (conn (self w)))) w).

Definition is_eof (e : error) : bool :=
  match e with EOF | ErrUnexpectedEOF => true | _ => false end.

(** One iteration of the loop of [tcpReader]; [io] is what the nested
    [c.conn.Close()] would report. *)
Definition tcpReader_step (io : option error) (w : World) : task_result :=
  match ReadFull (conn (self w)) 3 with
  | RFblock => Blocked
  | RFok b s => tcp_decode b (upd (set_conn s) w)
  | RFerr b err s =>
      if is_eof err then
        match Close io (upd (set_conn s) w) with
        | Ret _ w' => Exit w'
        | _ => Panicked
        end
      else tcp_decode (fill3 b) (upd (set_conn s) w)
  end.

(** ** Branch janitor *)

Definition expired (now t : Z) : bool := 30 * Second <? Sub now t.

(** The [range] loop over [receivedBranches]: every entry is visited
    once, [clock b] is the reading of [time.Now()] when branch [b] is
    visited. *)
Definition sweep (clock : string -> Z) (m : gmap string Z) : gmap string Z :=
  foldr (fun bt acc => if expired (clock bt.1) bt.2 then delete bt.1 acc else acc)
        m (map_to_list m).

(** One wake-up of [branchJanitor], after [time.Sleep(10s)]. The sweep
    runs between [Lock] and [Unlock] of [branchMutex]. *)
Definition branchJanitor_step (clock : string -> Z) (w : World) : task_result :=
  if closed (self w) then Exit w
  else if branchMutex (self w) then Blocked
  else Continue (upd (set_receivedBranches
                        (sweep clock (receivedBranches (self w)))) w).

(** The janitor started at instant [start]: wake-up [k] comes
    [10s + d_k] after the previous one, [d_k >= 0] being the scheduling
    latency; the sweep is taken at the wake-up instant. *)
Fixpoint branchJanitor (start : Z) (latency : list Z) (w : World) : task_result :=
  match latency with
  | [] => Continue w
  | d :: latency' =>
      let now := start + 10 * Second + d in
      match branchJanitor_step (fun _ => now) w with
      | Continue w' => branchJanitor now latency' w'
      | r => r
      end
  end.

(** The instants at which that janitor wakes up. *)
Fixpoint wakeups (start : Z) (latency : list Z) : list Z :=
  match latency with
  | [] => []
  | d :: latency' =>
      let now := start + 10 * Second + d in
      now :: wakeups now latency'
  end.

(** ** The tasks of a connection, interleaved *)

(** The API caller, the dispatcher, the transport reader, the janitor
    and the listener feeding datagrams all act on the same [Conn]. A
    schedule is the list of the steps they take, in the order in which
    they take effect.

    The ghost fields record where decoded units go: [enqueued] are the
    units a transport reader put on [readMessage], [delivered] the units
    [Read] took from it, [dispatched] the units [readRequest] kept for
    itself (returned, or discarded with the warning); [eofs] counts the
    end-of-stream signals [Read] returned and [returned] lists the
    results of the [readRequest] calls. *)
Record Sys := MkSys {
  world : World;
  dispatcher : option rr_pc;
  reader_exited : bool;
  janitor_exited : bool;
  enqueued : list message;
  delivered : list message;
  dispatched : list message;
  eofs : nat;
  returned : list (error + Request)
}.

Inductive action :=
  | ARead
  | AReadRecv
  | ALock
  | AUnlock
  | AWrite (b : list byte)
  | AFlush (io : option error)
  | AClose (io : option error)
  | ADispatch
  | ADatagram (b : slice)
  | AUdpReader (now : Z)
  | ATcpReader (io : option error)
  | AJanitor (clock : string -> Z).

Definition queue (w : World) : list message := buf (readMessage (self w)).

Definition set_world (w : World) (s : Sys) : Sys :=
  MkSys w (dispatcher s) (reader_exited s) (janitor_exited s) (enqueued s)
    (delivered s) (dispatched s) (eofs s) (returned s).

(** The unit the dispatcher holds in hand at a program point. *)
Definition in_hand (pc : option rr_pc) : list message :=
  match pc with Some (RRgot m) => [m] | _ => [] end.

Definition exits (r : task_result) : bool :=
  match r with Exit _ => true | _ => false end.

(** A step of the transport reader: the new world, with what the reader
    appended to the queue added to [enqueued]. A reader that has
    returned takes no more steps. *)
Definition reader_task (r : task_result) (s : Sys) : option Sys :=
  if reader_exited s then None
  else match r with
       | Continue w' | Exit w' =>
           Some (MkSys w' (dispatcher s) (exits r) (janitor_exited s)
                   (enqueued s ++ drop (length (queue (world s))) (queue w'))
                   (delivered s) (dispatched s) (eofs s) (returned s))
       | Blocked | Panicked => None
       end.

Definition janitor_task (r : task_result) (s : Sys) : option Sys :=
  if janitor_exited s then None
  else match r with
       | Continue w' | Exit w' =>
           Some (MkSys w' (dispatcher s) (reader_exited s) (exits r)
                   (enqueued s) (delivered s) (dispatched s) (eofs s)
                   (returned s))
       | Blocked | Panicked => None
       end.

(** A [Read] call that returns: with a unit when the queue got shorter,
    with the end-of-stream signal otherwise. *)
Definition read_done (r : outcome message) (s : Sys) : option Sys :=
  match r with
  | Ret m w' =>
      if (length (queue w') <? length (queue (world s)))%nat
      then Some (MkSys w' (dispatcher s) (reader_exited s)
                   (janitor_exited s) (enqueued s) (delivered s ++ [m])
                   (dispatched s) (eofs s) (returned s))
      else Some (MkSys w' (dispatcher s) (reader_exited s)
                   (janitor_exited s) (enqueued s) (delivered s)
                   (dispatched s) (S (eofs s)) (returned s))
  | _ => None
  end.

(** One scheduled step; [None] when the step cannot be taken now (the
    task is blocked or has returned) or panics. [ARead] is a [Read]
    call that starts now and returns at once; [AReadRecv] is the
    completion of a [Read] call that passed its [closed] test earlier
    and has been parked in its receive since. *)
Definition exec (a : action) (s : Sys) : option Sys :=
  let w := world s in
  match a with
  | ARead => read_done (Read w) s
  | AReadRecv => read_done (Read_recv w) s
  | ALock => Some (set_world (Lock w) s)
  | AUnlock => Some (set_world (Unlock w) s)
  | AWrite b => Some (set_world (snd (Write b w)) s)
  | AFlush io =>
      match Flush io w with Ret _ w' => Some (set_world w' s) | _ => None end
  | AClose io =>
      match Close io w with Ret _ w' => Some (set_world w' s) | _ => None end
  | ADispatch =>
      let pc := default RRtop (dispatcher s) in
      let kept := if locked (self w) then [] else in_hand (Some pc) in
      match readRequest_step pc w with
      | RRreturn r w' =>
          Some (MkSys w' None (reader_exited s) (janitor_exited s)
                  (enqueued s) (delivered s) (dispatched s ++ kept) (eofs s)
                  (returned s ++ [r]))
      | RRgoto pc' w' =>
          Some (MkSys w' (Some pc') (reader_exited s) (janitor_exited s)
                  (enqueued s) (delivered s) (dispatched s ++ kept) (eofs s)
                  (returned s))
      | RRblock | RRpanic => None
      end
  | ADatagram b =>
      match writeReceivedUDP b w with
      | Ret _ w' => Some (set_world w' s)
      | _ => None
      end
  | AUdpReader now => reader_task (udpReader_step now w) s
  | ATcpReader io => reader_task (tcpReader_step io w) s
  | AJanitor clock => janitor_task (branchJanitor_step clock w) s
  end.

Fixpoint run (sched : list action) (s : Sys) : option Sys :=
  match sched with
  | [] => Some s
  | a :: sched' =>
      match exec a s with
      | Some s' => run sched' s'
      | None => None
      end
  end.

(** A system around a world, with no [readRequest] call in progress. *)
Definition boot (w : World) : Sys :=
  MkSys w None false false [] [] [] 0 [].

(** The effects that [Close] performs. *)
Definition close_effect (e : Event) : bool :=
  match e with
  | EvDeregister _ _ | EvCloseReceiver | EvConnClose => true
  | _ => false
  end.
Definition close_effects (w : World) : list Event :=
  List.filter close_effect (log w).

(** The datagrams handed to the shared UDP socket. *)
Definition is_datagram (e : Event) : bool :=
  match e with EvWriteTo _ _ => true | _ => false end.
Definition datagrams (w : World) : list Event :=
  List.filter is_datagram (log w).

(** A run of [Write] calls. *)
Definition Writes (bs : list (list byte)) (w : World) : World :=
  foldl (fun w b => snd (Write b w)) w bs.

(** The calls of the read/write API, and the [Read] calls among them. *)
Definition api_call (a : action) : bool :=
  match a with ARead | AWrite _ | AFlush _ => true | _ => false end.
Definition is_read (a : action) : bool :=
  match a with ARead => true | _ => false end.

(** Every unit a reader enqueued is in exactly one place: delivered by
    [Read], kept by the dispatcher, in the dispatcher's hand, or still
    on the queue. *)
Definition balanced (s : Sys) : Prop :=
  enqueued s ≡ₚ delivered s ++ dispatched s ++ in_hand (dispatcher s)
                ++ queue (world s).



(** What no step changes once the connection is closed. *)
Definition frozen (w w' : World) : Prop :=
  closed (self w') = true /\
  listeners w' = listeners w /\
  close_effects w' = close_effects w /\
  datagrams w' = datagrams w /\
  writeBuffer (self w') = writeBuffer (self w) /\
  transport (self w') = transport (self w) /\
  chclosed (readMessage (self w')) = chclosed (readMessage (self w)).

(** ** The reader loop and further vocabulary *)

(** The loop of [udpReader], one iteration per clock reading. *)
Fixpoint udpReader (nows : list Z) (w : World) : task_result :=
  match nows with
  | [] => Continue w
  | now :: nows' =>
      match udpReader_step now w with
      | Continue w' => udpReader nows' w'
      | r => r
      end
  end.

(** The unit the UDP reader makes of a datagram that is not the
    keep-alive probe. *)
Definition udp_unit (received : slice) : message :=
  let rd := NewReader (slice_bytes received) in
  if bool_decide (take 3 (slice_bytes received) = SIP_prefix)
  then response_unit (fst (ReadResponse rd))
  else request_unit (fst (ReadRequest rd)).

(** A datagram the UDP reader decodes: not the probe, with three bytes
    or more. *)
Definition is_message (received : slice) : Prop :=
  slice_bytes received <> keepalive_probe /\
  (3 <= len received)%nat /\ slice_wf received.

(** A run of [writeReceivedUDP] calls, as long as none blocks. *)
Fixpoint feed (ds : list slice) (w : World) : outcome unit :=
  match ds with
  | [] => Ret tt w
  | d :: ds' =>
      match writeReceivedUDP d w with
      | Ret _ w' => feed ds' w'
      | r => r
      end
  end.

(** What a returned [readRequest] call hands back for a unit that is
    not a response. *)
Definition dispatch_result (m : message) : option (error + Request) :=
  match m with
  | MError e => Some (inl e)
  | MRequest r => Some (inr r)
  | MResponse _ => None
  end.

(** The state of the channels that the code relies on: [readMessage] is
    open, [udpReceiver] is closed only on a closed connection, and no
    buffer exceeds its capacity. *)
Definition sound (w : World) : Prop :=
  chclosed (readMessage (self w)) = false /\
  (chclosed (udpReceiver (self w)) = true -> closed (self w) = true) /\
  (length (queue w) <= cap (readMessage (self w)))%nat /\
  (length (buf (udpReceiver (self w))) <= cap (udpReceiver (self w)))%nat.

(** What no step of any task changes. *)
Definition same_setup (w w' : World) : Prop :=
  transport (self w') = transport (self w) /\
  address (self w') = address (self w) /\
  listener (self w') = listener (self w) /\
  cap (readMessage (self w')) = cap (readMessage (self w)) /\
  cap (udpReceiver (self w')) = cap (udpReceiver (self w)) /\
  chclosed (readMessage (self w')) = chclosed (readMessage (self w)) /\
  is_udp (conn (self w')) = is_udp (conn (self w)).

End Engine.

(** ** Close and writeReceivedUDP, statement by statement *)

(** Neither [closed] nor the channels are protected by a lock: between
    the test of [closed] and what follows it in [Close] and in
    [writeReceivedUDP], another task can run. The definitions below
    split both functions at their statements, so that calls that
    overlap can be scheduled. *)

Section Statements.
Context {P : Parser}.

(** Program points of [Close]: the test of line 205, the assignment of
    line 209, the tests of lines 211-212, the deregistration of lines
    213-215 (one step, under the pool mutex), [close(c.udpReceiver)] at
    line 217 and [c.conn.Close()] at line 221. *)
Inductive close_pc :=
  | CLtest
  | CLset
  | CLbranch
  | CLdereg (l : nat)
  | CLchan
  | CLconn.

Inductive close_result :=
  | CLreturn (r : option error) (w : World)
  | CLgoto (pc : close_pc) (w : World)
  | CLpanic.

Definition Close_step (io : option error) (pc : close_pc) (w : World) :
    close_result :=
  match pc with
  | CLtest =>
      if closed (self w) then CLreturn None w else CLgoto CLset w
  | CLset => CLgoto CLbranch (upd (set_closed true) w)
  | CLbranch =>
      if String.eqb (transport (self w)) "udp" then
        match listener (self w) with
        | Some l => CLgoto (CLdereg l) w
        | None => CLgoto CLchan w
        end
      else CLgoto CLconn w
  | CLdereg l => CLgoto CLchan (deregister l (address (self w)) w)
  | CLchan =>
      match close (udpReceiver (self w)) with
      | Some ch => CLreturn None (emit EvCloseReceiver (upd (set_udpReceiver ch) w))
      | None => CLpanic
      end
  | CLconn =>
      let s := conn (self w) in
      CLreturn io
        (emit EvConnClose
           (upd (set_conn (MkSocket (rx s) (rx_end s) true (is_udp s))) w))
  end.

(** One call of [Close] that no other task interrupts, for at most
    [fuel] statements. *)
Fixpoint Close_from (fuel : nat) (io : option error) (pc : close_pc)
    (w : World) : close_result :=
  match fuel with
  | O => CLgoto pc w
  | S fuel' =>
      match Close_step io pc w with
      | CLgoto pc' w' => Close_from fuel' io pc' w'
      | r => r
      end
  end.

(** Several calls of [Close] on one connection: where each call stands
    ([None] once it has returned) and what the calls returned. *)
Record Closers := MkClosers {
  cworld : World;
  calls : list (option close_pc);
  results : list (nat * option error)
}.




(** [n] calls that have not yet run their first statement. *)
Definition start (n : nat) (w : World) : Closers :=
  MkClosers w (replicate n (Some CLtest)) [].








(** Line 160 of [writeReceivedUDP]: the send a caller runs, or is parked
    in, once it has passed the test of line 156. *)
Definition writeReceivedUDP_send (b : slice) (w : World) : outcome unit :=
  match send (udpReceiver (self w)) b with
  | SendOk ch => Ret tt (upd (set_udpReceiver ch) w)
  | SendPanic => Panic
  | SendBlock => Block
  end.

End Statements.

(** ** A small parser and sample connections, for the examples *)

Fixpoint take_line (b : list byte) : option (list byte) :=
  match b with
  | [] => None
  | x :: r =>
      if decide (x = LF) then Some [x]
      else match take_line r with
           | Some l => Some (x :: l)
           | None => None
           end
  end.

(** Decodes one LF-terminated line; a source without one is malformed. *)
Definition line_parse (rd : Reader) : (error + list byte) * nat :=
  match take_line (data rd) with
  | Some l => (inr l, length l)
  | None => (inl (ErrOther "malformed"), length (data rd))
  end.

Definition line_parser : Parser :=
  {| Request := list byte; Response := list byte;
     ReadRequest := line_parse; ReadResponse := line_parse |}.

Definition sample_socket (udp : bool) (bytes : list byte) (e : option error) : Socket :=
  MkSocket bytes e false udp.

(** An open UDP connection registered under its address in listener 0,
    with [ds] on its datagram queue and [q] on [readMessage], both of
    capacity 4. *)
Definition udp_sample (ds : list slice) (q : list (@message line_parser)) :
    @World line_parser :=
  MkWorld line_parser
    (MkConn line_parser "udp" (Some 0%nat) (sample_socket true [] None)
       "192.0.2.7:5060" (Chan ds 4 false) false false [] (Chan q 4 false) 0 ∅
       false)
    {[ 0%nat := MkListener {[ "192.0.2.7:5060" := 1%nat ]} ]} [].

Definition udp_world : @World line_parser := udp_sample [] [].

(** An open TCP connection whose stream holds [bytes] and then reports
    [e]. *)
Definition tcp_world (bytes : list byte) (e : option error) : @World line_parser :=
  MkWorld line_parser
    (MkConn line_parser "tcp" None (sample_socket false bytes e)
       "192.0.2.9:5060" (Chan [] 0 false) false false [] (Chan [] 4 false) 0 ∅
       false)
    ∅ [].

Definition bytes_of (s : string) : list byte := list_byte_of_string s.
Definition line (s : string) : list byte := bytes_of s ++ [LF].

(** [udp_world] with branch [z9hG4bK123] recorded at instant 5s. *)
Definition branch_world : @World line_parser :=
  upd (set_receivedBranches {[ "z9hG4bK123" := 5 * Second ]}) udp_world.

(** Two decoded requests, and a system in which the dispatcher is
    parked in its receive while the gate is locked and both requests
    wait on the queue. *)
Definition req_a : @message line_parser :=
  MRequest (P:=line_parser) (line "INVITE a").
Definition req_b : @message line_parser :=
  MRequest (P:=line_parser) (line "INVITE b").
Definition locked_sys : @Sys line_parser :=
  MkSys (Lock (udp_sample [] [req_a; req_b])) (Some RRrecv) false false
    [req_a; req_b] [] [] 0 [].

(** A decoded response. *)
Definition resp_ok : @message line_parser :=
  MResponse (P:=line_parser) (line "SIP/2.0 200 OK").

(** The schedule in which the gate is locked while the dispatcher is
    parked in its receive, and two requests arrive afterwards. *)
Definition lock_race : list action :=
  [ADispatch; ADispatch; ALock;
   ADatagram (slice_of (line "INVITE a"));
   ADatagram (slice_of (line "INVITE b"));
   AUdpReader 1; AUdpReader 2;
   ADispatch; ADispatch;
   ARead; ARead].

(** [udp_world] after [Close()]. *)
Definition udp_closed : @World line_parser :=
  match Close None udp_world with Ret _ w => w | _ => udp_world end.

(** Steps taken on the closed connection, and the system they lead to. *)
Definition late_steps : list action :=
  [ARead; AWrite (bytes_of "x"); AFlush None; AClose None; AUdpReader 3].
Definition late_sys : @Sys line_parser :=
  default (boot udp_closed)
    (run late_steps (set_world udp_closed (boot udp_world))).

(** Further sample inputs: a response datagram and a request datagram,
    a queue with two responses in front of two requests, the gate
    locked on a waiting dispatcher, a connection closed with a datagram
    pending, and the connection after the reader has taken a
    keep-alive probe. *)
Definition dgram_ok : slice := slice_of (line "SIP/2.0 200 OK").
Definition dgram_a : slice := slice_of (line "INVITE a").
Definition queued_world : @World line_parser :=
  udp_sample [] [resp_ok; resp_ok; req_a; req_b].
Definition gate_sys : @Sys line_parser :=
  MkSys (Lock (udp_sample [] [resp_ok; req_a; req_b])) (Some RRwait) false
    false [resp_ok; req_a; req_b] [] [] 0 [].
Definition closed_pending : @World line_parser :=
  match Close None (udp_sample [dgram_a] []) with
  | Ret _ w => w
  | _ => udp_world
  end.
Definition after_probe : @World line_parser :=
  match udpReader_step 7 (udp_sample [slice_of keepalive_probe] []) with
  | Continue w => w
  | _ => udp_world
  end.
Definition two_messages : list byte :=
  line "SIP/2.0 200 OK" ++ line "INVITE a".

(** A TCP connection whose peer has closed the stream while a decoded
    response is still waiting on [readMessage]. *)
Definition tcp_queued : @World line_parser :=
  upd (set_readMessage (Chan [resp_ok] 4 false)) (tcp_world [] (Some EOF)).


(** * Properties *)

(** ** Bytes, slices and durations *)

Lemma byte_to_N_inj (x y : byte) : Byte.to_N x = Byte.to_N y -> x = y.
Proof.
  intros E. apply (f_equal Byte.of_N) in E.
  rewrite !Byte.of_to_N in E. congruence.
Qed.

Lemma bytes_Compare_eq (a b : list byte) : bytes_Compare a b = 0 <-> a = b.
Proof.
  revert b. induction a as [|x a IH]; intros [|y b]; simpl; try easy.
  destruct (N.compare_spec (Byte.to_N x) (Byte.to_N y)) as [E|L|L].
  - apply byte_to_N_inj in E. subst y. rewrite IH. split; congruence.
  - split; [lia | intros [= -> _]; lia].
  - split; [lia | intros [= -> _]; lia].
Qed.

Lemma bytes_Compare_eqb (a b : list byte) :
  (bytes_Compare a b =? 0) = bool_decide (a = b).
Proof.
  destruct (Z.eqb_spec (bytes_Compare a b) 0) as [E|E];
    rewrite bytes_Compare_eq in E; symmetry.
  - by apply bool_decide_eq_true.
  - by apply bool_decide_eq_false.
Qed.

Lemma slice_to_Some (s : slice) (n : nat) :
  (n <= slice_cap s)%nat -> slice_to s n = Some (take n (arr s)).
Proof. intros L. unfold slice_to. by rewrite (proj2 (Nat.leb_le _ _) L). Qed.

Lemma slice_to_None (s : slice) (n : nat) :
  slice_to s n = None <-> (slice_cap s < n)%nat.
Proof.
  unfold slice_to. destruct (Nat.leb_spec n (slice_cap s)); split; try easy; lia.
Qed.

(** The saturation of [Sub] never changes the outcome of the janitor's
    comparison with 30 seconds. *)
Lemma expired_spec (now t : Z) : expired now t = true <-> 30 * Second < now - t.
Proof.
  unfold expired, Sub.
  destruct (Z.ltb_spec maxDuration (now - t)) as [A|A];
    [|destruct (Z.ltb_spec (now - t) minDuration) as [B|B]];
    rewrite Z.ltb_lt; revert A; try revert B;
    unfold maxDuration, minDuration, Second; lia.
Qed.

Lemma expired_false (now t : Z) : expired now t = false <-> now - t <= 30 * Second.
Proof.
  destruct (expired now t) eqn:E.
  - apply expired_spec in E. split; [easy | lia].
  - split; [|easy]. intros _.
    destruct (Z.le_gt_cases (now - t) (30 * Second)) as [L|L]; [easy|].
    apply expired_spec in L. congruence.
Qed.

Section Properties.
Context {P : Parser}.

(** ** Frame lemmas *)

Lemma close_effects_emit (e : Event) (w : World) :
  close_effects (emit e w)
  = close_effects w ++ (if close_effect e then [e] else []).
Proof.
  unfold close_effects, emit. simpl. rewrite List.filter_app. simpl.
  by destruct (close_effect e).
Qed.

Lemma datagrams_emit (e : Event) (w : World) :
  datagrams (emit e w) = datagrams w ++ (if is_datagram e then [e] else []).
Proof.
  unfold datagrams, emit. simpl. rewrite List.filter_app. simpl.
  by destruct (is_datagram e).
Qed.

Lemma Close_closed (io : option error) (w : World) :
  closed (self w) = true -> Close io w = Ret None w.
Proof. intros C. unfold Close. by rewrite C. Qed.

Lemma Close_sets_closed (io r : option error) (w w' : World) :
  Close io w = Ret r w' -> closed (self w') = true.
Proof.
  unfold Close. destruct (closed (self w)) eqn:C.
  - intros [= _ <-]. exact C.
  - repeat case_match; intros; simplify_eq; reflexivity.
Qed.

Ltac split_cases := repeat (first [progress simplify_eq/= | case_match]).

Lemma exec_closed_frozen (a : action) (s s' : Sys) :
  closed (self (world s)) = true -> exec a s = Some s' ->
  frozen (world s) (world s').
Proof.
  intros C E. unfold frozen.
  destruct a; simpl in E;
    unfold read_done, Read, Read_recv, Lock, Unlock, Write, Flush,
      writeReceivedUDP, reader_task, janitor_task, udpReader_step,
      tcpReader_step, branchJanitor_step, tcp_decode, enqueue,
      readRequest_step, send, recv, Write in E;
    try rewrite C in E; simpl in E.
  all: try rewrite (Close_closed _ _ C) in E.
  all: try rewrite Close_closed in E by (simpl; exact C).
  all: split_cases; try done.
  all: try match goal with
           | H : Close _ _ = Ret _ _ |- _ =>
               rewrite Close_closed in H by (simpl; exact C); simplify_eq/=
           end.
  all: rewrite ?close_effects_emit, ?datagrams_emit; simpl;
    rewrite ?app_nil_r; done.
Qed.

Lemma frozen_refl (w : World) : closed (self w) = true -> frozen w w.
Proof. intros C. by repeat split. Qed.

Lemma frozen_trans (w1 w2 w3 : World) :
  frozen w1 w2 -> frozen w2 w3 -> frozen w1 w3.
Proof. unfold frozen. intros (?&?&?&?&?&?&?) (?&?&?&?&?&?&?). repeat split; congruence. Qed.

Lemma run_closed_frozen (sched : list action) (s s' : Sys) :
  closed (self (world s)) = true -> run sched s = Some s' ->
  frozen (world s) (world s').
Proof.
  revert s. induction sched as [|a sched IH]; simpl; intros s C R.
  - injection R as <-. by apply frozen_refl.
  - destruct (exec a s) as [s1|] eqn:E; [|discriminate].
    pose proof (exec_closed_frozen _ _ _ C E) as F.
    eapply frozen_trans; [exact F|]. apply IH; [apply F | exact R].
Qed.

Lemma closed_calls (w : World) (b : list byte) (io : option error) :
  closed (self w) = true ->
  Read w = Ret (MError EOF) w /\
  Write b w = ((0, Some ErrClosedPipe), w) /\
  Flush io w = Ret (Some ErrClosedPipe) w.
Proof. intros C. unfold Read, Write, Flush. by rewrite C. Qed.

Lemma closed_api_run (calls : list action) (s : Sys) :
  closed (self (world s)) = true -> forallb api_call calls = true ->
  exists s', run calls s = Some s' /\ world s' = world s /\
             delivered s' = delivered s /\
             eofs s' = (eofs s + length (List.filter is_read calls))%nat.
Proof.
  revert s. induction calls as [|a calls IH]; intros s C A.
  - exists s. simpl. repeat split; lia.
  - simpl in A. apply andb_prop in A as [Aa A].
    assert (exists s1, exec a s = Some s1 /\ world s1 = world s /\
                       delivered s1 = delivered s /\
                       eofs s1 = (eofs s + if is_read a then 1 else 0)%nat)
      as (s1 & E & W & D & N).
    { destruct a; try discriminate; simpl; unfold read_done, Read, Write, Flush;
        rewrite C; simpl.
      - rewrite Nat.ltb_irrefl. eexists; repeat split; simpl; lia.
      - exists s. destruct s; repeat split; simpl; lia.
      - exists s. destruct s; repeat split; simpl; lia. }
    destruct (IH s1) as (s' & R & W' & D' & N'); [congruence | exact A |].
    exists s'. simpl. rewrite E. repeat split; try congruence.
    rewrite N', N. destruct a; simpl; lia.
Qed.

(** ** Closed connections *)

(** C4. Once [Close] has returned, and whatever the tasks of the
    connection do afterwards, [Read] returns the end-of-stream signal
    and [Write] and [Flush] return the closed-pipe error without
    changing anything; any number of such calls in a row all return,
    each [Read] among them with end-of-stream and none with a unit. *)
Theorem calls_after_Close (s0 : Sys) (io r : option error) (w1 : World)
    (sched : list action) (s : Sys) :
  Close io (world s0) = Ret r w1 ->
  run sched (set_world w1 s0) = Some s ->
  (forall b io',
      Read (world s) = Ret (MError EOF) (world s) /\
      Write b (world s) = ((0, Some ErrClosedPipe), world s) /\
      Flush io' (world s) = Ret (Some ErrClosedPipe) (world s)) /\
  (forall calls, forallb api_call calls = true ->
      exists s', run calls s = Some s' /\ world s' = world s /\
                 delivered s' = delivered s /\
                 eofs s' = (eofs s + length (List.filter is_read calls))%nat).
Proof.
  intros HC R.
  assert (closed (self (world s)) = true) as C.
  { apply Close_sets_closed in HC.
    by apply (run_closed_frozen sched (set_world w1 s0) s). }
  split.
  - intros b io'. by apply closed_calls.
  - intros calls A. by apply closed_api_run.
Qed.

(** ** Close *)

Lemma Close_open_effects (io r : option error) (w w1 : World) :
  closed (self w) = false -> Close io w = Ret r w1 ->
  close_effects w1
  = close_effects w ++
    (if String.eqb (transport (self w)) "udp"
     then match listener (self w) with
          | Some l => [EvDeregister l (address (self w))]
          | None => []
          end ++ [EvCloseReceiver]
     else [EvConnClose]).
Proof.
  intros C. unfold Close, deregister. rewrite C. simpl.
  destruct (String.eqb (transport (self w)) "udp").
  - destruct (listener (self w)); simpl;
      destruct (close (udpReceiver (self w))); try discriminate;
      intros [= _ <-]; unfold close_effects; simpl;
      rewrite ?List.filter_app; simpl; by rewrite <- ?app_assoc.
  - intros [= _ <-]. by rewrite close_effects_emit.
Qed.

Lemma Close_deregisters (io r : option error) (w w1 : World) (l : nat)
    (L : Listener) :
  closed (self w) = false -> Close io w = Ret r w1 ->
  String.eqb (transport (self w)) "udp" = true ->
  listener (self w) = Some l -> listeners w1 !! l = Some L ->
  udpPool L !! address (self w) = None.
Proof.
  intros C HC U HL. revert HC. unfold Close, deregister. rewrite C. simpl.
  rewrite U, HL. simpl.
  destruct (close (udpReceiver (self w))); [|discriminate].
  intros [= _ <-]. simpl. rewrite lookup_alter_eq.
  destruct (listeners w !! l) as [L0|]; [|discriminate].
  intros [= <-]. simpl. apply lookup_delete_eq.
Qed.

Lemma Close_open_returns (io : option error) (w : World) :
  closed (self w) = false ->
  (String.eqb (transport (self w)) "udp" = true ->
   chclosed (udpReceiver (self w)) = false) ->
  exists r w1, Close io w = Ret r w1.
Proof.
  intros C O. unfold Close, deregister, close. rewrite C. simpl.
  destruct (String.eqb (transport (self w)) "udp"); [|by eexists _, _].
  destruct (listener (self w)); simpl; rewrite (O eq_refl); by eexists _, _.
Qed.

(** One [Close] call that no other task interrupts, on an open
    connection (whose datagram queue, on UDP, is still open), returns
    and leaves the connection closed. It
    performs the closing effects once: on UDP the deregistration (when
    there is a listener), after which the address is absent from the
    listener's pool, and the close of the datagram queue; on TCP the
    close of the socket. Every later [Close] returns nil and changes
    nothing, and whatever steps the tasks take afterwards, later [Close]
    calls among them, the flag stays set, no closing effect is performed
    again and the registry is not touched again. *)
Theorem Close_effect_once (w : World) (io : option error) :
  closed (self w) = false ->
  (String.eqb (transport (self w)) "udp" = true ->
   chclosed (udpReceiver (self w)) = false) ->
  exists r w1,
    Close io w = Ret r w1 /\
    closed (self w1) = true /\
    close_effects w1
    = close_effects w ++
      (if String.eqb (transport (self w)) "udp"
       then match listener (self w) with
            | Some l => [EvDeregister l (address (self w))]
            | None => []
            end ++ [EvCloseReceiver]
       else [EvConnClose]) /\
    (forall l L, String.eqb (transport (self w)) "udp" = true ->
       listener (self w) = Some l -> listeners w1 !! l = Some L ->
       udpPool L !! address (self w) = None) /\
    (forall io2, Close io2 w1 = Ret None w1) /\
    (forall s sched s', world s = w1 -> run sched s = Some s' ->
       closed (self (world s')) = true /\
       close_effects (world s') = close_effects w1 /\
       listeners (world s') = listeners w1).
Proof.
  intros C O. destruct (Close_open_returns io w C O) as (r & w1 & HC).
  exists r, w1. pose proof (Close_sets_closed _ _ _ _ HC) as C1.
  split; [exact HC|]. split; [exact C1|]. split; [|split; [|split]].
  - by apply (Close_open_effects io r).
  - intros l L U HL HL1. by apply (Close_deregisters io r w w1 l L).
  - intros io2. by apply Close_closed.
  - intros s sched s' <- R.
    destruct (run_closed_frozen sched s s' C1 R) as (?&?&?&_). by repeat split.
Qed.

(** ** Close, statement by statement *)

Lemma Close_from_Close (io : option error) (w : World) :
  Close_from 5 io CLtest w
  = match Close io w with
    | Ret r w' => CLreturn r w'
    | _ => CLpanic
    end.
Proof.
  unfold Close, close. cbn [Close_from Close_step].
  destruct (closed (self w)); [done|]. cbn [Close_from Close_step]. simpl.
  destruct (String.eqb (transport (self w)) "udp"); [|done].
  destruct (listener (self w)); simpl; unfold close; simpl;
    by destruct (chclosed (udpReceiver (self w))).
Qed.















(** ** Write and Flush *)

Lemma upd_writeBuffer_twice (x y : list byte) (w : World) :
  upd (set_writeBuffer x) (upd (set_writeBuffer y) w)
  = upd (set_writeBuffer x) w.
Proof. reflexivity. Qed.

Lemma Writes_open (bs : list (list byte)) (w : World) :
  closed (self w) = false ->
  Writes bs w = upd (set_writeBuffer (writeBuffer (self w) ++ concat bs)) w.
Proof.
  unfold Writes. revert w. induction bs as [|b bs IH]; intros w C; simpl.
  - rewrite app_nil_r. by destruct w as [[] ? ?].
  - unfold Write at 2. rewrite C. simpl. rewrite IH by exact C. simpl.
    by rewrite upd_writeBuffer_twice, <- app_assoc.
Qed.

(** C5. On an open UDP connection whose buffer is empty, any run of
    [Write] calls followed by one [Flush] hands exactly one datagram to
    the socket, addressed to the peer and carrying the written slices
    concatenated in write order; the buffer is empty afterwards and the
    call returns whatever the socket reported, failure or success
    alike; a second [Flush] hands over an empty payload, not those
    bytes again. *)
Theorem Flush_one_datagram (bs : list (list byte)) (io : option error)
    (w : World) :
  closed (self w) = false ->
  String.eqb (transport (self w)) "udp" = true ->
  is_udp (conn (self w)) = true ->
  writeBuffer (self w) = [] ->
  exists w',
    Flush io (Writes bs w) = Ret io w' /\
    log w' = log w ++ [EvWriteTo (address (self w)) (concat bs)] /\
    writeBuffer (self w') = [] /\
    forall io2, exists w'',
      Flush io2 w' = Ret io2 w'' /\
      log w'' = log w' ++ [EvWriteTo (address (self w)) []] /\
      writeBuffer (self w'') = [].
Proof.
  intros C U S B. rewrite (Writes_open bs w C), B. simpl.
  unfold Flush at 1. simpl. rewrite C, U, S.
  eexists. split; [reflexivity|]. repeat split.
  intros io2. unfold Flush. simpl. rewrite C, U, S.
  eexists. by repeat split.
Qed.

(** ** The UDP reader *)

Lemma udpReader_step_recv (now : Z) (w : World) (received : slice)
    (rest : list slice) :
  buf (udpReceiver (self w)) = received :: rest ->
  udpReader_step now w
  = let ch := Chan rest (cap (udpReceiver (self w)))
                (chclosed (udpReceiver (self w))) in
    let w1 := upd (set_lastMessage now) (upd (set_udpReceiver ch) w) in
    if bool_decide (slice_bytes received = keepalive_probe) then
      Continue (snd (Write keepalive_reply w1))
    else
      match slice_to received 3 with
      | None => Panicked
      | Some prefix =>
          if bool_decide (prefix = SIP_prefix)
          then enqueue (response_unit
                          (fst (ReadResponse (NewReader (slice_bytes received))))) w1
          else enqueue (request_unit
                          (fst (ReadRequest (NewReader (slice_bytes received))))) w1
      end.
Proof.
  intros B. unfold udpReader_step, recv. rewrite B. simpl.
  rewrite bytes_Compare_eqb. destruct (bool_decide _); [done|].
  destruct (slice_to received 3); [|done]. by rewrite bytes_Compare_eqb.
Qed.

Lemma enqueue_room (m : message) (w : World) :
  chclosed (readMessage (self w)) = false ->
  (length (queue w) < cap (readMessage (self w)))%nat ->
  exists w', enqueue m w = Continue w' /\ queue w' = queue w ++ [m] /\
             log w' = log w /\ closed (self w') = closed (self w) /\
             udpReceiver (self w') = udpReceiver (self w) /\
             conn (self w') = conn (self w).
Proof.
  intros C L. unfold enqueue, send, queue in *. rewrite C.
  rewrite (proj2 (Nat.ltb_lt _ _) L). eexists. by repeat split.
Qed.

Lemma prefix_of_slice (received : slice) :
  (3 <= len received)%nat -> slice_wf received ->
  slice_to received 3 = Some (take 3 (slice_bytes received)).
Proof.
  unfold slice_wf, slice_bytes. intros L W.
  rewrite slice_to_Some by lia. f_equal.
  rewrite take_take. f_equal. lia.
Qed.

(** C3 (what the code does on a keep-alive probe). The probe is taken
    off the datagram queue and nothing is put on [readMessage]; the
    reply is appended to the write buffer (when the connection is open)
    and the iteration ends there: nothing is handed to the socket. *)
Theorem udpReader_keepalive_no_flush (now : Z) (w : World) (received : slice)
    (rest : list slice) :
  buf (udpReceiver (self w)) = received :: rest ->
  slice_bytes received = keepalive_probe ->
  exists w',
    udpReader_step now w = Continue w' /\
    queue w' = queue w /\
    log w' = log w /\
    buf (udpReceiver (self w')) = rest /\
    writeBuffer (self w')
    = if closed (self w) then writeBuffer (self w)
      else writeBuffer (self w) ++ keepalive_reply.
Proof.
  intros B K. rewrite (udpReader_step_recv now w received rest B). simpl.
  rewrite bool_decide_eq_true_2 by exact K.
  eexists. split; [reflexivity|]. unfold Write. simpl.
  by destruct (closed (self w)).
Qed.

(** C9. A datagram that is not the keep-alive probe and has three bytes
    is decoded as a response when these bytes are [SIP] and as a request
    otherwise; a segment whose three sniffed bytes were read is treated
    the same way. In each case exactly one unit goes to the tail of
    [readMessage]: the decoded value, or the decoder's error. The reader
    then continues with the next datagram, or with the rest of the
    stream. *)
Theorem dispatch_on_prefix (w : World) :
  chclosed (readMessage (self w)) = false ->
  (length (queue w) < cap (readMessage (self w)))%nat ->
  (forall now received rest,
      buf (udpReceiver (self w)) = received :: rest ->
      slice_bytes received <> keepalive_probe ->
      (3 <= len received)%nat -> slice_wf received ->
      let rd := NewReader (slice_bytes received) in
      exists w',
        udpReader_step now w = Continue w' /\
        buf (udpReceiver (self w')) = rest /\
        queue w'
        = queue w ++
          [if bool_decide (take 3 (slice_bytes received) = SIP_prefix)
           then match fst (ReadResponse rd) with
                | inl err => MError err
                | inr resp => MResponse resp
                end
           else match fst (ReadRequest rd) with
                | inl err => MError err
                | inr req => MRequest req
                end]) /\
  (forall io b s,
      ReadFull (conn (self w)) 3 = RFok b s ->
      let rd := MultiReader b s in
      exists w',
        tcpReader_step io w = Continue w' /\
        closed (self w') = closed (self w) /\
        queue w'
        = queue w ++
          [if bool_decide (b = SIP_prefix)
           then match fst (ReadResponse rd) with
                | inl err => MError err
                | inr resp => MResponse resp
                end
           else match fst (ReadRequest rd) with
                | inl err => MError err
                | inr req => MRequest req
                end]).
Proof.
  intros C L. split.
  - intros now received rest B K L3 W rd.
    rewrite (udpReader_step_recv now w received rest B). simpl.
    rewrite bool_decide_eq_false_2 by exact K.
    rewrite (prefix_of_slice received L3 W).
    destruct (bool_decide (take 3 (slice_bytes received) = SIP_prefix)).
    + destruct (enqueue_room
                  (response_unit (fst (ReadResponse rd)))
                  (upd (set_lastMessage now)
                     (upd (set_udpReceiver
                             (Chan rest (cap (udpReceiver (self w)))
                                (chclosed (udpReceiver (self w))))) w)))
        as (w' & E & Q & _ & _ & U & _); [exact C | exact L |].
      exists w'. split; [exact E|]. split; [by rewrite U|exact Q].
    + destruct (enqueue_room
                  (request_unit (fst (ReadRequest rd)))
                  (upd (set_lastMessage now)
                     (upd (set_udpReceiver
                             (Chan rest (cap (udpReceiver (self w)))
                                (chclosed (udpReceiver (self w))))) w)))
        as (w' & E & Q & _ & _ & U & _); [exact C | exact L |].
      exists w'. split; [exact E|]. split; [by rewrite U|exact Q].
  - intros io b s R rd. unfold tcpReader_step. rewrite R.
    unfold tcp_decode. simpl. rewrite bytes_Compare_eqb.
    destruct (bool_decide (b = SIP_prefix)).
    + match goal with |- context [enqueue ?m ?w0] =>
        destruct (enqueue_room m w0) as (w' & E & Q & _ & Cl & _);
          [exact C | exact L |] end.
      exists w'. by repeat split.
    + match goal with |- context [enqueue ?m ?w0] =>
        destruct (enqueue_room m w0) as (w' & E & Q & _ & Cl & _);
          [exact C | exact L |] end.
      exists w'. by repeat split.
Qed.


(** ** The TCP reader *)

Lemma tcp_decode_no_exit (b : list byte) (w w' : World) :
  tcp_decode b w <> Exit w'.
Proof.
  unfold tcp_decode, enqueue. repeat case_match; discriminate.
Qed.

Lemma Close_tcp_returns (io : option error) (w : World) :
  String.eqb (transport (self w)) "udp" = false ->
  exists r w', Close io w = Ret r w' /\ closed (self w') = true /\
               queue w' = queue w.
Proof.
  intros T. unfold Close. destruct (closed (self w)) eqn:C.
  - by exists None, w.
  - simpl. rewrite T. eexists _, _. by repeat split.
Qed.

(** C6 (as the code has it). When the 3-byte sniff read fails on a TCP
    connection: on [io.EOF] or [io.ErrUnexpectedEOF] the reader calls
    [Close] and returns, leaving the connection closed and the queue as
    it was; on any other error it does not return: it goes on to the
    decode step with the sniff buffer as the failed read left it. *)
Theorem tcp_sniff_failure (io : option error) (w : World) (b : list byte)
    (e : error) (s : Socket) :
  String.eqb (transport (self w)) "udp" = false ->
  ReadFull (conn (self w)) 3 = RFerr b e s ->
  (e = EOF \/ e = ErrUnexpectedEOF ->
     exists r w',
       Close io (upd (set_conn s) w) = Ret r w' /\
       tcpReader_step io w = Exit w' /\
       closed (self w') = true /\
       queue w' = queue w) /\
  (e <> EOF -> e <> ErrUnexpectedEOF ->
     tcpReader_step io w = tcp_decode (fill3 b) (upd (set_conn s) w) /\
     forall w', tcpReader_step io w <> Exit w').
Proof.
  intros T R. unfold tcpReader_step. rewrite R. split.
  - intros E. assert (is_eof e = true) as -> by (by destruct E as [-> | ->]).
    destruct (Close_tcp_returns io (upd (set_conn s) w) T) as (r & w' & HC & C & Q).
    exists r, w'. rewrite HC. by repeat split.
  - intros N1 N2. assert (is_eof e = false) as -> by (by destruct e).
    split; [reflexivity|]. intros w'. apply tcp_decode_no_exit.
Qed.

(** ** The branch janitor *)

Lemma sweep_list_keep (clock : string -> Z) (l : list (string * Z))
    (m0 : gmap string Z) (b : string) :
  (forall t, (b, t) ∈ l -> expired (clock b) t = false) ->
  foldr (fun bt acc => if expired (clock bt.1) bt.2 then delete bt.1 acc else acc)
        m0 l !! b = m0 !! b.
Proof.
  induction l as [|[b1 t1] l IH]; intros K; simpl; [done|].
  rewrite <- IH by (intros t I; apply K; by right).
  destruct (expired (clock b1) t1) eqn:E; [|done].
  destruct (decide (b1 = b)) as [->|N].
  - rewrite K in E; [discriminate | by left].
  - by apply lookup_delete_ne.
Qed.

Lemma sweep_list_drop (clock : string -> Z) (l : list (string * Z))
    (m0 : gmap string Z) (b : string) (t : Z) :
  (b, t) ∈ l -> expired (clock b) t = true ->
  foldr (fun bt acc => if expired (clock bt.1) bt.2 then delete bt.1 acc else acc)
        m0 l !! b = None.
Proof.
  induction l as [|[b1 t1] l IH]; intros I E; simpl.
  - by apply elem_of_nil in I.
  - apply elem_of_cons in I as [[= <- <-]|I].
    + rewrite E. apply lookup_delete_eq.
    + specialize (IH I E).
      destruct (expired (clock b1) t1); [|exact IH].
      rewrite lookup_delete. by case_decide.
Qed.

Lemma sweep_lookup (clock : string -> Z) (m : gmap string Z) (b : string) :
  sweep clock m !! b
  = match m !! b with
    | Some t => if expired (clock b) t then None else Some t
    | None => None
    end.
Proof.
  unfold sweep. destruct (m !! b) as [t|] eqn:L.
  - destruct (expired (clock b) t) eqn:E.
    + apply (sweep_list_drop clock _ m b t); [|exact E].
      by apply elem_of_map_to_list.
    + rewrite sweep_list_keep; [exact L|].
      intros t' I. apply elem_of_map_to_list in I. congruence.
  - rewrite sweep_list_keep; [exact L|].
    intros t' I. apply elem_of_map_to_list in I. congruence.
Qed.

Lemma janitor_step_open (clock : string -> Z) (w : World) :
  closed (self w) = false -> branchMutex (self w) = false ->
  branchJanitor_step clock w
  = Continue (upd (set_receivedBranches
                     (sweep clock (receivedBranches (self w)))) w).
Proof. intros C M. unfold branchJanitor_step. by rewrite C, M. Qed.

Lemma janitor_keeps (start T : Z) (latency : list Z) (w : World) (b : string) :
  closed (self w) = false -> branchMutex (self w) = false ->
  receivedBranches (self w) !! b = Some T ->
  Forall (fun t => t <= T + 30 * Second) (wakeups start latency) ->
  exists w', branchJanitor start latency w = Continue w' /\
             receivedBranches (self w') !! b = Some T.
Proof.
  revert start w. induction latency as [|d latency IH]; intros start w C M L F.
  - by exists w.
  - simpl in *. apply Forall_cons in F as [F1 F].
    rewrite janitor_step_open by done.
    apply IH; try done. simpl. rewrite sweep_lookup, L.
    by rewrite (proj2 (expired_false _ _)) by lia.
Qed.

Lemma janitor_stays_absent (start : Z) (latency : list Z) (w : World)
    (b : string) :
  closed (self w) = false -> branchMutex (self w) = false ->
  receivedBranches (self w) !! b = None ->
  exists w', branchJanitor start latency w = Continue w' /\
             receivedBranches (self w') !! b = None.
Proof.
  revert start w. induction latency as [|d latency IH]; intros start w C M L.
  - by exists w.
  - simpl. rewrite janitor_step_open by done.
    apply IH; try done. simpl. by rewrite sweep_lookup, L.
Qed.

Lemma janitor_removes (start T : Z) (latency : list Z) (w : World) (b : string) :
  closed (self w) = false -> branchMutex (self w) = false ->
  receivedBranches (self w) !! b = Some T ->
  Exists (fun t => T + 30 * Second < t) (wakeups start latency) ->
  exists w', branchJanitor start latency w = Continue w' /\
             receivedBranches (self w') !! b = None.
Proof.
  revert start w. induction latency as [|d latency IH]; intros start w C M L X.
  - by apply Exists_nil in X.
  - simpl in *. rewrite janitor_step_open by done.
    destruct (expired (start + 10 * Second + d) T) eqn:E.
    + apply janitor_stays_absent; try done. simpl.
      by rewrite sweep_lookup, L, E.
    + apply Exists_cons in X as [X|X].
      * apply expired_false in E. lia.
      * apply IH; try done. simpl. by rewrite sweep_lookup, L, E.
Qed.

Lemma wakeups_ideal_last (start : Z) (n : nat) :
  (0 < n)%nat ->
  start + Z.of_nat n * (10 * Second) ∈ wakeups start (replicate n 0).
Proof.
  revert start. induction n as [|n IH]; intros start L; [lia|].
  cbn [wakeups replicate]. destruct n as [|n].
  - replace (start + Z.of_nat 1 * (10 * Second))
      with (start + 10 * Second + 0) by (unfold Second; lia).
    by left.
  - right. replace (start + Z.of_nat (S (S n)) * (10 * Second))
      with ((start + 10 * Second + 0) + Z.of_nat (S n) * (10 * Second))
      by (unfold Second; lia).
    apply IH. lia.
Qed.

(** C7. A wake-up of the janitor returns when the connection is closed
    and waits while the branch mutex is held; otherwise it removes
    exactly the entries whose timestamp is more than 30s behind the
    clock reading taken for them, and keeps all others unchanged. Hence
    an entry recorded at [T] survives every run of wake-ups none of
    which comes after [T + 30s], is gone after a run with a wake-up past
    [T + 30s], and with wake-ups exactly 10s apart such a wake-up comes
    no later than [T + 40s]. *)
Theorem janitor_eviction (w : World) :
  (forall clock, closed (self w) = true -> branchJanitor_step clock w = Exit w) /\
  (forall clock, closed (self w) = false -> branchMutex (self w) = true ->
     branchJanitor_step clock w = Blocked) /\
  (closed (self w) = false -> branchMutex (self w) = false ->
     (forall clock, exists w',
        branchJanitor_step clock w = Continue w' /\
        closed (self w') = false /\ branchMutex (self w') = false /\
        forall b,
          receivedBranches (self w') !! b
          = match receivedBranches (self w) !! b with
            | Some t =>
                if bool_decide (30 * Second < clock b - t) then None else Some t
            | None => None
            end) /\
     (forall branch T start latency,
        receivedBranches (self w) !! branch = Some T ->
        (Forall (fun t => t <= T + 30 * Second) (wakeups start latency) ->
           exists w', branchJanitor start latency w = Continue w' /\
                      receivedBranches (self w') !! branch = Some T) /\
        (Exists (fun t => T + 30 * Second < t) (wakeups start latency) ->
           exists w', branchJanitor start latency w = Continue w' /\
                      receivedBranches (self w') !! branch = None) /\
        (start <= T + 30 * Second ->
           exists n w',
             branchJanitor start (replicate n 0) w = Continue w' /\
             start + Z.of_nat n * (10 * Second) <= T + 40 * Second /\
             receivedBranches (self w') !! branch = None))).
Proof.
  split; [|split].
  - intros clock C. unfold branchJanitor_step. by rewrite C.
  - intros clock C M. unfold branchJanitor_step. by rewrite C, M.
  - intros C M. split.
    + intros clock. rewrite janitor_step_open by done.
      eexists. split; [reflexivity|]. repeat split; try done.
      intros b. simpl. rewrite sweep_lookup.
      destruct (receivedBranches (self w) !! b) as [t|]; [|done].
      destruct (expired (clock b) t) eqn:E.
      * apply expired_spec in E. by rewrite bool_decide_eq_true_2.
      * apply expired_false in E. rewrite bool_decide_eq_false_2; [done|lia].
    + intros branch T start latency L. split; [|split].
      * intros F. by apply janitor_keeps.
      * intros X. by apply (janitor_removes start T).
      * intros S.
        set (n := Z.to_nat ((T + 30 * Second - start) / (10 * Second) + 1)).
        assert (0 <= (T + 30 * Second - start) / (10 * Second)) as Q
            by (apply Z.div_pos; unfold Second in *; lia).
        assert (T + 30 * Second < start + Z.of_nat n * (10 * Second)
                <= T + 40 * Second) as [B1 B2].
        { unfold n. rewrite Z2Nat.id by lia.
          pose proof (Z.mul_div_le (T + 30 * Second - start) (10 * Second)).
          pose proof (Z.mul_succ_div_gt (T + 30 * Second - start) (10 * Second)).
          unfold Second in *. lia. }
        destruct (janitor_removes start T (replicate n 0) w branch C M L)
          as (w' & R & N).
        { apply Exists_exists. exists (start + Z.of_nat n * (10 * Second)).
          split; [|exact B1]. apply wakeups_ideal_last. unfold n. lia. }
        by exists n, w'.
Qed.

(** ** Close and readers of the inbound queue *)



(** ** The dispatcher and the gate *)

Lemma Close_queue (io r : option error) (w w' : World) :
  Close io w = Ret r w' -> queue w' = queue w.
Proof.
  unfold Close, deregister, queue. intros E. split_cases; done.
Qed.

(** [readRequest] on its own: end of stream on a closed connection; on
    an open, unlocked one the request at the head of the queue. *)
Lemma readRequest_closed (fuel : nat) (w : World) :
  closed (self w) = true -> readRequest (S fuel) w = RRreturn (inl EOF) w.
Proof. intros C. unfold readRequest. simpl. by rewrite C. Qed.

Lemma readRequest_head (fuel : nat) (w : World) (r : Request)
    (rest : list message) :
  closed (self w) = false -> locked (self w) = false ->
  queue w = MRequest r :: rest ->
  readRequest (4 + fuel) w
  = RRreturn (inr r)
      (upd (set_readMessage
              (Chan rest (cap (readMessage (self w)))
                 (chclosed (readMessage (self w))))) w).
Proof.
  unfold queue, readRequest. intros C L Q.
  change (4 + fuel)%nat with (S (S (S (S fuel)))).
  cbn [readRequest_from readRequest_step]. rewrite C.
  cbn [readRequest_from readRequest_step]. rewrite L.
  cbn [readRequest_from readRequest_step]. unfold recv. rewrite Q.
  cbn [readRequest_from readRequest_step]. simpl. by rewrite L.
Qed.

Lemma in_hand_default (d : option rr_pc) :
  in_hand d = in_hand (Some (default RRtop d)).
Proof. by destruct d. Qed.

Lemma exec_balanced (a : action) (s s' : Sys) :
  balanced s -> exec a s = Some s' -> balanced s'.
Proof.
  unfold balanced. intros B E.
  destruct a;
    try match type of E with
        | exec ADispatch _ = _ => rewrite (in_hand_default (dispatcher s)) in B
        end;
    simpl in E;
    unfold read_done, Read, Read_recv, Lock, Unlock, Write, Flush,
      writeReceivedUDP, reader_task, janitor_task, udpReader_step,
      tcpReader_step, branchJanitor_step, tcp_decode, enqueue,
      readRequest_step, send, recv, Write, queue in *.
  all: revert B; split_cases; intros B.
  all: try match goal with
           | H : Close _ _ = Ret _ _ |- _ =>
               apply Close_queue in H; unfold queue in H; simpl in H;
               rewrite H
           end.
  all: try match goal with
           | H : (?n <? ?n)%nat = true |- _ =>
               rewrite Nat.ltb_irrefl in H; discriminate H
           | H : (?n <? S ?n)%nat = false |- _ =>
               apply Nat.ltb_ge in H; lia
           end.
  all: rewrite ?drop_all, ?drop_app_length, ?app_nil_r; simpl; try done.
  all: try (etrans; [exact B|]; solve_Permutation).
  all: rewrite B; solve_Permutation.
Qed.

Lemma run_balanced (sched : list action) (s s' : Sys) :
  balanced s -> run sched s = Some s' -> balanced s'.
Proof.
  revert s. induction sched as [|a sched IH]; simpl; intros s B R.
  - by injection R as <-.
  - destruct (exec a s) as [s1|] eqn:E; [|discriminate].
    apply (IH s1); [by apply (exec_balanced a s)|exact R].
Qed.

(** C2 (as the code has it). When the dispatcher, parked in its
    receive, takes a unit off the queue while the gate is locked, its
    next step puts that same unit back at the tail of the queue and
    returns to the head of the loop, without returning or keeping
    anything; when no other unit was waiting the queue is as before.
    In every schedule the units are conserved: each unit a reader
    enqueued is in exactly one place among the units [Read] delivered,
    the units the dispatcher kept, the dispatcher's hand and the
    queue. *)
Theorem requeue_on_locked (s : Sys) (msg : message) (rest : list message) :
  dispatcher s = Some RRrecv ->
  locked (self (world s)) = true ->
  chclosed (readMessage (self (world s))) = false ->
  queue (world s) = msg :: rest ->
  (length (queue (world s)) <= cap (readMessage (self (world s))))%nat ->
  (exists s1 s2,
      exec ADispatch s = Some s1 /\
      dispatcher s1 = Some (RRgot msg) /\ queue (world s1) = rest /\
      exec ADispatch s1 = Some s2 /\
      dispatcher s2 = Some RRtop /\
      queue (world s2) = rest ++ [msg] /\
      returned s2 = returned s /\
      dispatched s2 = dispatched s /\
      delivered s2 = delivered s /\
      (rest = [] -> queue (world s2) = queue (world s))) /\
  (forall sched s', balanced s -> run sched s = Some s' -> balanced s').
Proof.
  intros D L C Q R. split; [|intros sched s'; apply run_balanced].
  unfold queue in *. rewrite Q in R. simpl in R.
  eexists _, _. split.
  { simpl. rewrite D. simpl. unfold recv. rewrite Q, L. reflexivity. }
  split; [reflexivity|]. split; [reflexivity|]. split.
  { simpl. rewrite L. unfold send. simpl. rewrite C.
    rewrite (proj2 (Nat.ltb_lt (length rest) _)) by lia. reflexivity. }
  simpl. rewrite !app_nil_r. repeat split; try done.
  intros ->. by rewrite Q.
Qed.




End Properties.

(** * Instances on the sample connections *)

Lemma calls_after_Close_witness :
  run late_steps (set_world udp_closed (boot udp_world)) = Some late_sys /\
  (forall b io',
      Read (world late_sys) = Ret (MError EOF) (world late_sys) /\
      Write b (world late_sys) = ((0, Some ErrClosedPipe), world late_sys) /\
      Flush io' (world late_sys) = Ret (Some ErrClosedPipe) (world late_sys)) /\
  (forall calls, forallb api_call calls = true ->
      exists s', run calls late_sys = Some s' /\ world s' = world late_sys /\
                 delivered s' = delivered late_sys /\
                 eofs s' = (eofs late_sys + length (List.filter is_read calls))%nat).
Proof.
  split; [vm_compute; reflexivity|].
  apply (calls_after_Close (boot udp_world) None None udp_closed late_steps);
    vm_compute; reflexivity.
Defined.

Lemma Close_effect_once_witness :
  exists r w1,
    Close None udp_world = Ret r w1 /\
    closed (self w1) = true /\
    close_effects w1
    = [EvDeregister 0 "192.0.2.7:5060"; EvCloseReceiver] /\
    (forall l L, String.eqb "udp" "udp" = true ->
       Some 0%nat = Some l -> listeners w1 !! l = Some L ->
       udpPool L !! "192.0.2.7:5060" = None) /\
    (forall io2, Close io2 w1 = Ret None w1) /\
    (forall s sched s', world s = w1 -> run sched s = Some s' ->
       closed (self (world s')) = true /\
       close_effects (world s') = close_effects w1 /\
       listeners (world s') = listeners w1).
Proof.
  exact (Close_effect_once udp_world None eq_refl (fun _ => eq_refl)).
Defined.




Lemma Flush_one_datagram_witness :
  exists w',
    Flush (Some (ErrOther "network unreachable"))
      (Writes [bytes_of "A"; bytes_of "B"; bytes_of "C"] udp_world)
    = Ret (Some (ErrOther "network unreachable")) w' /\
    log w' = [EvWriteTo "192.0.2.7:5060" (bytes_of "ABC")] /\
    writeBuffer (self w') = [] /\
    forall io2, exists w'',
      Flush io2 w' = Ret io2 w'' /\
      log w'' = log w' ++ [EvWriteTo "192.0.2.7:5060" []] /\
      writeBuffer (self w'') = [].
Proof.
  exact (Flush_one_datagram [bytes_of "A"; bytes_of "B"; bytes_of "C"]
           (Some (ErrOther "network unreachable")) udp_world
           eq_refl eq_refl eq_refl eq_refl).
Defined.

Lemma udpReader_keepalive_no_flush_witness :
  exists w',
    udpReader_step 1 (udp_sample [slice_of keepalive_probe] []) = Continue w' /\
    queue w' = [] /\
    log w' = [] /\
    buf (udpReceiver (self w')) = [] /\
    writeBuffer (self w') = keepalive_reply.
Proof.
  exact (udpReader_keepalive_no_flush 1
           (udp_sample [slice_of keepalive_probe] [])
           (slice_of keepalive_probe) [] eq_refl eq_refl).
Defined.

Lemma dispatch_on_prefix_witness :
  (exists w',
      udpReader_step 1 (udp_sample [slice_of (line "SIP/2.0 200 OK")] [])
      = Continue w' /\
      buf (udpReceiver (self w')) = [] /\
      queue w' = [MResponse (P:=line_parser) (line "SIP/2.0 200 OK")]) /\
  (exists w',
      tcpReader_step None
        (tcp_world (line "INVITE sip:bob@example.com SIP/2.0") None)
      = Continue w' /\
      closed (self w') = false /\
      queue w'
      = [MRequest (P:=line_parser) (line "INVITE sip:bob@example.com SIP/2.0")]).
Proof.
  split.
  - refine (proj1 (dispatch_on_prefix
                     (udp_sample [slice_of (line "SIP/2.0 200 OK")] [])
                     eq_refl _)
              1 (slice_of (line "SIP/2.0 200 OK")) [] eq_refl _ _ _).
    + simpl. lia.
    + intros E. vm_compute in E. discriminate E.
    + simpl. lia.
    + unfold slice_wf, slice_cap. simpl. lia.
  - refine (proj2 (dispatch_on_prefix
                     (tcp_world (line "INVITE sip:bob@example.com SIP/2.0") None)
                     eq_refl _)
              None (bytes_of "INV")
              (sample_socket false (line "ITE sip:bob@example.com SIP/2.0") None)
              eq_refl).
    simpl. lia.
Defined.


Lemma tcp_sniff_failure_witness :
  (exists r w',
      Close None (upd (set_conn (sample_socket false [] (Some EOF)))
                    (tcp_world (bytes_of "SI") (Some EOF))) = Ret r w' /\
      tcpReader_step None (tcp_world (bytes_of "SI") (Some EOF)) = Exit w' /\
      closed (self w') = true /\
      queue w' = []) /\
  tcpReader_step None (tcp_world (bytes_of "SI") (Some ErrNetClosed))
  = tcp_decode (fill3 (bytes_of "SI"))
      (upd (set_conn (sample_socket false [] (Some ErrNetClosed)))
         (tcp_world (bytes_of "SI") (Some ErrNetClosed))).
Proof.
  split.
  - apply (tcp_sniff_failure None (tcp_world (bytes_of "SI") (Some EOF))
             (bytes_of "SI") ErrUnexpectedEOF
             (sample_socket false [] (Some EOF)) eq_refl eq_refl).
    by right.
  - apply (tcp_sniff_failure None (tcp_world (bytes_of "SI") (Some ErrNetClosed))
             (bytes_of "SI") ErrNetClosed
             (sample_socket false [] (Some ErrNetClosed)) eq_refl eq_refl);
      discriminate.
Defined.

(** C6, counterexample: the sniff read fails with a connection reset
    after two bytes; the reader neither closes nor returns, it decodes
    the sniff buffer and enqueues the decoder's error. *)
Lemma tcp_sniff_error_not_terminal :
  ReadFull (conn (self (tcp_world (bytes_of "SI")
                          (Some (ErrOther "connection reset"))))) 3
  = RFerr (bytes_of "SI") (ErrOther "connection reset")
      (sample_socket false [] (Some (ErrOther "connection reset"))) /\
  exists w',
    tcpReader_step None
      (tcp_world (bytes_of "SI") (Some (ErrOther "connection reset")))
    = Continue w' /\
    closed (self w') = false /\
    sock_closed (conn (self w')) = false /\
    queue w' = [MError (ErrOther "malformed")].
Proof. split; [reflexivity|]. eexists. by repeat split. Qed.

Lemma janitor_eviction_witness :
  (exists w', branchJanitor 0 [0; 0; 0] branch_world = Continue w' /\
              receivedBranches (self w') !! "z9hG4bK123" = Some (5 * Second)) /\
  (exists w', branchJanitor 0 [0; 0; 0; 0] branch_world = Continue w' /\
              receivedBranches (self w') !! "z9hG4bK123" = None).
Proof.
  destruct (janitor_eviction branch_world) as (_ & _ & J).
  destruct (J eq_refl eq_refl) as (_ & R).
  destruct (R "z9hG4bK123" (5 * Second) 0 [0; 0; 0] eq_refl) as (K & _ & _).
  destruct (R "z9hG4bK123" (5 * Second) 0 [0; 0; 0; 0] eq_refl) as (_ & D & _).
  split.
  - apply K. repeat (apply Forall_cons; split; [unfold Second; lia|]).
    apply Forall_nil. exact I.
  - apply D. do 3 apply Exists_cons_tl. apply Exists_cons_hd.
    unfold Second. lia.
Defined.



Lemma requeue_on_locked_witness :
  exists s1 s2,
    exec ADispatch locked_sys = Some s1 /\
    dispatcher s1 = Some (RRgot req_a) /\ queue (world s1) = [req_b] /\
    exec ADispatch s1 = Some s2 /\
    dispatcher s2 = Some RRtop /\
    queue (world s2) = [req_b; req_a] /\
    returned s2 = [] /\
    dispatched s2 = [] /\
    delivered s2 = [] /\
    ([req_b] = [] -> queue (world s2) = queue (world locked_sys)).
Proof.
  refine (proj1 (requeue_on_locked locked_sys req_a [req_b]
                   eq_refl eq_refl eq_refl eq_refl _)).
  simpl. lia.
Defined.

(** C2, counterexample: the gate is locked while the dispatcher is
    parked in its receive; the reader then enqueues request a and
    request b; the dispatcher takes a and puts it back behind b; the
    lock holder reads b before a. *)
Lemma requeue_reorders :
  enqueued <$> run lock_race (boot udp_world) = Some [req_a; req_b] /\
  delivered <$> run lock_race (boot udp_world) = Some [req_b; req_a] /\
  dispatched <$> run lock_race (boot udp_world) = Some [].
Proof. repeat split; vm_compute; reflexivity. Qed.


(** * Further properties of the connection engine *)

Section More.
Context {P : Parser}.

Ltac split_cases := repeat (first [progress simplify_eq/= | case_match]).

(** ** The dispatcher on its own *)

Lemma readRequest_from_response (fuel : nat) (w : World) (r : Response)
    (rest : list message) :
  closed (self w) = false -> locked (self w) = false ->
  queue w = MResponse r :: rest ->
  readRequest_from (4 + fuel) RRtop w
  = readRequest_from fuel RRtop
      (emit (EvPrintln warning)
         (upd (set_readMessage
                 (Chan rest (cap (readMessage (self w)))
                    (chclosed (readMessage (self w))))) w)).
Proof.
  unfold queue. intros C L Q.
  change (4 + fuel)%nat with (S (S (S (S fuel)))).
  cbn [readRequest_from readRequest_step]. rewrite C.
  cbn [readRequest_from readRequest_step]. rewrite L.
  cbn [readRequest_from readRequest_step]. unfold recv. rewrite Q.
  cbn [readRequest_from readRequest_step]. simpl. by rewrite L.
Qed.

Lemma readRequest_from_keep (fuel : nat) (w : World) (m : message)
    (res : error + Request) (rest : list message) :
  closed (self w) = false -> locked (self w) = false ->
  queue w = m :: rest -> dispatch_result m = Some res ->
  readRequest_from (4 + fuel) RRtop w
  = RRreturn res
      (upd (set_readMessage
              (Chan rest (cap (readMessage (self w)))
                 (chclosed (readMessage (self w))))) w).
Proof.
  unfold queue. intros C L Q D.
  change (4 + fuel)%nat with (S (S (S (S fuel)))).
  cbn [readRequest_from readRequest_step]. rewrite C.
  cbn [readRequest_from readRequest_step]. rewrite L.
  cbn [readRequest_from readRequest_step]. unfold recv. rewrite Q.
  cbn [readRequest_from readRequest_step]. simpl. rewrite L.
  destruct m; simpl in D; by simplify_eq.
Qed.

(** X1. Run on its own on an open, unlocked connection, [readRequest]
    discards the responses at the head of the queue, printing the
    warning once for each, and returns the first request or error
    behind them; the queue is left with what followed that unit. *)
Theorem readRequest_skips_responses (rs : list Response) (m : message)
    (res : error + Request) (rest : list message) (fuel : nat) (w : World) :
  closed (self w) = false -> locked (self w) = false ->
  queue w = map MResponse rs ++ m :: rest ->
  dispatch_result m = Some res ->
  exists w',
    readRequest (4 * (length rs + 1) + fuel) w = RRreturn res w' /\
    queue w' = rest /\
    log w' = log w ++ replicate (length rs) (EvPrintln warning) /\
    closed (self w') = false /\ locked (self w') = false.
Proof.
  unfold readRequest. revert w.
  induction rs as [|r rs IH]; intros w C L Q D.
  - simpl in Q. change (4 * (length [] + 1) + fuel)%nat with (4 + fuel)%nat.
    rewrite (readRequest_from_keep fuel w m res rest C L Q D).
    eexists. split; [reflexivity|]. simpl. by rewrite app_nil_r.
  - simpl in Q.
    replace (4 * (length (r :: rs) + 1) + fuel)%nat
      with (4 + (4 * (length rs + 1) + fuel))%nat by (simpl; lia).
    rewrite (readRequest_from_response _ w r _ C L Q).
    match goal with
    | |- context [readRequest_from _ RRtop ?w0] =>
        destruct (IH w0) as (w' & R & Qw & Lg & C' & L');
          [exact C | exact L | reflexivity | exact D |]
    end.
    exists w'. split; [exact R|]. split; [exact Qw|]. split; [|done].
    rewrite Lg. simpl. by rewrite <- app_assoc.
Qed.

(** X2. While the gate is locked and nobody unlocks it, [readRequest]
    stays in its wait loop for as long as it runs: it takes nothing off
    the queue and changes nothing. *)
Theorem readRequest_waits_while_locked (fuel : nat) (w : World) :
  closed (self w) = false -> locked (self w) = true ->
  readRequest (S fuel) w = RRgoto RRwait w.
Proof.
  intros C L. unfold readRequest. cbn [readRequest_from readRequest_step].
  rewrite C. induction fuel as [|fuel IH]; [done|].
  cbn [readRequest_from readRequest_step]. by rewrite L.
Qed.

(** X3. When only responses are queued, [readRequest] discards them all
    and then blocks in its receive: it never returns a response. *)
Theorem readRequest_responses_only (rs : list Response) (fuel : nat) (w : World) :
  closed (self w) = false -> locked (self w) = false ->
  chclosed (readMessage (self w)) = false ->
  queue w = map MResponse rs ->
  readRequest (4 * length rs + 3 + fuel) w = RRblock.
Proof.
  unfold readRequest. revert w.
  induction rs as [|r rs IH]; intros w C L O Q.
  - simpl in Q. unfold queue in Q.
    change (4 * length [] + 3 + fuel)%nat with (S (S (S fuel))).
    cbn [readRequest_from readRequest_step]. rewrite C.
    cbn [readRequest_from readRequest_step]. rewrite L.
    cbn [readRequest_from readRequest_step]. unfold recv. by rewrite Q, O.
  - simpl in Q.
    replace (4 * length (r :: rs) + 3 + fuel)%nat
      with (4 + (4 * length rs + 3 + fuel))%nat by (simpl; lia).
    rewrite (readRequest_from_response _ w r _ C L Q).
    by apply IH.
Qed.

(** ** Invariants of every schedule *)

Lemma Close_same_setup (io r : option error) (w w' : World) :
  Close io w = Ret r w' -> same_setup w w'.
Proof.
  unfold Close, deregister, close, same_setup. intros E. split_cases; done.
Qed.

Lemma exec_same_setup (a : action) (s s' : Sys) :
  exec a s = Some s' -> same_setup (world s) (world s').
Proof.
  intros E. unfold same_setup.
  destruct a; simpl in E;
    unfold read_done, Read, Read_recv, Lock, Unlock, Write, Flush,
      writeReceivedUDP, reader_task, janitor_task, udpReader_step,
      tcpReader_step, branchJanitor_step, tcp_decode, enqueue,
      readRequest_step, send, recv, Write, ReadFull, drain in E.
  all: split_cases; try done.
  all: match goal with
       | H : Close _ _ = Ret _ _ |- _ =>
           apply Close_same_setup in H; unfold same_setup in H; simpl in H;
           exact H
       end.
Qed.

Lemma Close_sound (io r : option error) (w w' : World) :
  sound w -> Close io w = Ret r w' -> sound w'.
Proof.
  unfold Close, deregister, close, sound, queue. intros (O & G & B1 & B2) E.
  split_cases; try done.
  all: repeat split; try done.
Qed.

Lemma exec_sound (a : action) (s s' : Sys) :
  sound (world s) -> exec a s = Some s' -> sound (world s').
Proof.
  unfold sound, queue. intros (O & G & B1 & B2) E.
  destruct a; simpl in E;
    unfold read_done, Read, Read_recv, Lock, Unlock, Write, Flush,
      writeReceivedUDP, reader_task, janitor_task, udpReader_step,
      tcpReader_step, branchJanitor_step, tcp_decode, enqueue,
      readRequest_step, send, recv, Write, queue, ReadFull, drain in E.
  all: revert O G B1 B2; split_cases; intros O G B1 B2.
  all: try match goal with
       | H : Close _ _ = Ret _ _ |- _ =>
           apply Close_sound in H; [exact H|by repeat split]
       end.
  all: repeat match goal with
       | H : (_ <? _)%nat = true |- _ => apply Nat.ltb_lt in H
       | H : (_ <? _)%nat = false |- _ => apply Nat.ltb_ge in H
       end.
  all: simpl in *; rewrite ?length_app in *; simpl in *.
  all: repeat split;
    first [done | lia | (intros X; specialize (G X); congruence)
          | (intros X; congruence) ].
Qed.

Lemma same_setup_refl (w : World) : same_setup w w.
Proof. by repeat split. Qed.

Lemma same_setup_trans (w1 w2 w3 : World) :
  same_setup w1 w2 -> same_setup w2 w3 -> same_setup w1 w3.
Proof.
  unfold same_setup. intros (?&?&?&?&?&?&?) (?&?&?&?&?&?&?).
  repeat split; congruence.
Qed.

Lemma run_setup (sched : list action) (s s' : Sys) :
  run sched s = Some s' -> same_setup (world s) (world s').
Proof.
  revert s. induction sched as [|a sched IH]; simpl; intros s R.
  - injection R as <-. apply same_setup_refl.
  - destruct (exec a s) as [s1|] eqn:E; [|discriminate].
    eapply same_setup_trans; [by apply (exec_same_setup a)|by apply IH].
Qed.

(** X4. No step of any task changes what [Transport] and [Addr]
    return, the listener the connection points to, the capacity of
    either queue or the kind of socket, and no step closes
    [readMessage]: the [!more] branches of [Read] and [readRequest] are
    never taken on a connection whose [readMessage] starts open. *)
Theorem run_same_setup (sched : list action) (s s' : Sys) :
  run sched s = Some s' ->
  Transport (world s') = Transport (world s) /\
  Addr (world s') = Addr (world s) /\
  same_setup (world s) (world s').
Proof.
  intros R. pose proof (run_setup sched s s' R) as S.
  split; [apply S|]. split; [apply S|exact S].
Qed.

(** X5. Every schedule keeps the channels sound: [readMessage] stays
    open, [udpReceiver] is closed only once the connection is closed,
    and neither buffer grows beyond its capacity. *)
Theorem run_sound (sched : list action) (s s' : Sys) :
  sound (world s) -> run sched s = Some s' -> sound (world s').
Proof.
  revert s. induction sched as [|a sched IH]; simpl; intros s S R.
  - by injection R as <-.
  - destruct (exec a s) as [s1|] eqn:E; [|discriminate].
    apply (IH s1); [by apply (exec_sound a s)|exact R].
Qed.

(** X6. Where the code can panic, statement by statement. The send of
    line 160 panics exactly when the datagram queue is closed, and
    [close(c.udpReceiver)] at line 217 exactly when it is closed
    already; no other statement of [Close] panics. Both happen once a
    [Close] has run on a UDP connection: a [writeReceivedUDP] call that
    passed the test of line 156 before, and a [Close] call that passed
    the test of line 205 before, panic at their next statement. While
    [readMessage] is open [readRequest] never panics, nor does
    [tcpReader] on a TCP connection; the UDP reader panics exactly on a
    datagram that is not the probe and has capacity below three, and
    [Flush] exactly on an open UDP connection whose socket is not a UDP
    socket. *)
Theorem panic_conditions (w : World) :
  chclosed (readMessage (self w)) = false ->
  (forall b, writeReceivedUDP_send b w = Panic <->
             chclosed (udpReceiver (self w)) = true) /\
  (forall io pc, Close_step io pc w = CLpanic <->
                 pc = CLchan /\ chclosed (udpReceiver (self w)) = true) /\
  (forall io r w1,
     String.eqb (transport (self w)) "udp" = true ->
     closed (self w) = false ->
     Close_from 5 io CLtest w = CLreturn r w1 ->
     (forall b, writeReceivedUDP b w <> Panic /\
                writeReceivedUDP_send b w1 = Panic) /\
     (forall io', Close_step io' CLtest w = CLgoto CLset w /\
                  Close_step io' CLchan w1 = CLpanic)) /\
  (forall pc, readRequest_step pc w <> RRpanic) /\
  (forall io, String.eqb (transport (self w)) "udp" = false ->
              tcpReader_step io w <> Panicked) /\
  (forall now,
     udpReader_step now w = Panicked <->
     exists d rest, buf (udpReceiver (self w)) = d :: rest /\
                    slice_bytes d <> keepalive_probe /\
                    (slice_cap d < 3)%nat) /\
  (forall io,
     Flush io w = Panic <->
     closed (self w) = false /\
     String.eqb (transport (self w)) "udp" = true /\
     is_udp (conn (self w)) = false).
Proof.
  intros O. split; [|split; [|split; [|split; [|split; [|split]]]]].
  - intros b. unfold writeReceivedUDP_send, send.
    destruct (chclosed (udpReceiver (self w))); [done|].
    split; [|done].
    by destruct (length (buf (udpReceiver (self w))) <? cap (udpReceiver (self w)))%nat.
  - intros io pc. unfold close. split.
    + destruct pc; simpl; unfold close; repeat case_match; try done.
    + intros [-> D]. simpl. unfold close. by rewrite D.
  - intros io r w1 U C. cbn [Close_from Close_step]. rewrite C.
    cbn [Close_from Close_step]. simpl. rewrite U.
    intros HC. assert (chclosed (udpReceiver (self w)) = false
                       /\ chclosed (udpReceiver (self w1)) = true) as [D D1].
    { revert HC.
      destruct (listener (self w)); simpl; unfold deregister, close; simpl;
        destruct (chclosed (udpReceiver (self w))); try done;
        by intros [= _ <-]. }
    split.
    + intros b. unfold writeReceivedUDP, writeReceivedUDP_send, send.
      rewrite C, D, D1. split; [|done].
      by destruct (length (buf (udpReceiver (self w))) <? cap (udpReceiver (self w)))%nat.
    + intros io'. split; [done|]. unfold close. by rewrite D1.
  - intros pc. unfold readRequest_step, send, recv. rewrite O.
    repeat case_match; congruence.
  - intros io T. unfold tcpReader_step, tcp_decode, enqueue, send, Close.
    simpl. rewrite O, T. repeat case_match; simpl in *; congruence.
  - intros now. unfold udpReader_step, recv.
    destruct (buf (udpReceiver (self w))) as [|d rest] eqn:B.
    + split; [by destruct (chclosed (udpReceiver (self w)))|].
      by intros (d & rest & B' & _).
    + simpl. rewrite bytes_Compare_eqb.
      destruct (bool_decide_reflect (slice_bytes d = keepalive_probe)) as [K|K].
      * split; [done|]. by intros (d' & rest' & [= <- <-] & K' & _).
      * destruct (slice_to d 3) eqn:T.
        -- split.
           ++ unfold enqueue, send. simpl. rewrite O.
              repeat case_match; congruence.
           ++ intros (d' & rest' & [= <- <-] & _ & T').
              apply slice_to_None in T'. congruence.
        -- split; [|done]. intros _. exists d, rest.
           split; [done|]. split; [done|]. by apply slice_to_None.
  - intros io. unfold Flush. repeat case_match; split; try done.
    all: intros (?&?&?); congruence.
Qed.

(** ** Datagrams through the UDP reader *)

Lemma run_app (l1 l2 : list action) (s : Sys) :
  run (l1 ++ l2) s = match run l1 s with Some s1 => run l2 s1 | None => None end.
Proof.
  revert s. induction l1 as [|a l1 IH]; intros s; simpl; [done|].
  by destruct (exec a s).
Qed.

Lemma Reads_run (ms rest : list message) (s : Sys) :
  closed (self (world s)) = false ->
  queue (world s) = ms ++ rest ->
  exists s',
    run (replicate (length ms) ARead) s = Some s' /\
    delivered s' = delivered s ++ ms /\
    queue (world s') = rest /\
    eofs s' = eofs s /\
    closed (self (world s')) = false /\
    locked (self (world s')) = locked (self (world s)) /\
    dispatcher s' = dispatcher s /\
    returned s' = returned s /\
    dispatched s' = dispatched s /\
    udpReceiver (self (world s')) = udpReceiver (self (world s)) /\
    chclosed (readMessage (self (world s'))) = chclosed (readMessage (self (world s))).
Proof.
  revert s. induction ms as [|m ms IH]; intros s C Q.
  - exists s. simpl. rewrite app_nil_r. by repeat split.
  - simpl in Q. unfold queue in Q.
    destruct (IH (MkSys (upd (set_readMessage
                                (Chan (ms ++ rest) (cap (readMessage (self (world s))))
                                   (chclosed (readMessage (self (world s))))))
                           (world s))
                    (dispatcher s) (reader_exited s) (janitor_exited s)
                    (enqueued s) (delivered s ++ [m]) (dispatched s) (eofs s)
                    (returned s)))
      as (s' & R & D & Q' & E & C' & L' & Di & Re & Dd & U & Ch);
      [exact C|reflexivity|].
    exists s'. split.
    + cbn [replicate length run exec]. unfold read_done, Read, Read_recv, recv.
      rewrite C, Q. unfold queue. simpl. rewrite Q. simpl.
      rewrite (proj2 (Nat.ltb_lt _ _)) by lia. exact R.
    + simpl in *. rewrite D, <- app_assoc. by repeat split.
Qed.

(** X7. On an open connection, as many [Read] calls as there are units
    at the head of the queue return these units in queue order, without
    an end-of-stream signal, and leave the rest of the queue in place. *)
Theorem Reads_in_order (ms rest : list message) (s : Sys) :
  closed (self (world s)) = false ->
  queue (world s) = ms ++ rest ->
  exists s',
    run (replicate (length ms) ARead) s = Some s' /\
    delivered s' = delivered s ++ ms /\
    queue (world s') = rest /\
    eofs s' = eofs s.
Proof.
  intros C Q. destruct (Reads_run ms rest s C Q) as (s' & R & D & Q' & E & _).
  by exists s'.
Qed.

Lemma udpReader_step_message (now : Z) (w : World) (d : slice)
    (rest : list slice) :
  buf (udpReceiver (self w)) = d :: rest ->
  is_message d ->
  chclosed (readMessage (self w)) = false ->
  (length (queue w) < cap (readMessage (self w)))%nat ->
  udpReader_step now w
  = Continue
      (upd (set_readMessage
              (Chan (queue w ++ [udp_unit d]) (cap (readMessage (self w))) false))
         (upd (set_lastMessage now)
            (upd (set_udpReceiver
                    (Chan rest (cap (udpReceiver (self w)))
                       (chclosed (udpReceiver (self w))))) w))).
Proof.
  intros B (K & L3 & W) O R.
  rewrite (udpReader_step_recv now w d rest B). simpl.
  rewrite bool_decide_eq_false_2 by exact K.
  rewrite (prefix_of_slice d L3 W). unfold udp_unit, enqueue, send, queue in *.
  simpl. rewrite O, (proj2 (Nat.ltb_lt _ _) R).
  by destruct (bool_decide (take 3 (slice_bytes d) = SIP_prefix)).
Qed.

Lemma udpReader_run (ds rest : list slice) (nows : list Z) (w : World) :
  buf (udpReceiver (self w)) = ds ++ rest ->
  Forall is_message ds ->
  chclosed (readMessage (self w)) = false ->
  (length (queue w) + length ds <= cap (readMessage (self w)))%nat ->
  length nows = length ds ->
  exists w',
    udpReader nows w = Continue w' /\
    queue w' = queue w ++ map udp_unit ds /\
    buf (udpReceiver (self w')) = rest /\
    log w' = log w /\
    writeBuffer (self w') = writeBuffer (self w) /\
    closed (self w') = closed (self w) /\
    chclosed (udpReceiver (self w')) = chclosed (udpReceiver (self w)).
Proof.
  revert nows w. induction ds as [|d ds IH]; intros nows w B F O R N.
  - destruct nows; [|discriminate]. exists w. simpl.
    rewrite app_nil_r. by repeat split.
  - destruct nows as [|now nows]; [discriminate|].
    apply Forall_cons in F as [Fd F]. simpl in B, R, N.
    cbn [udpReader].
    rewrite (udpReader_step_message now w d (ds ++ rest) B Fd O) by lia.
    match goal with
    | |- context [udpReader nows ?w0] =>
        destruct (IH nows w0) as (w' & U & Q & B' & Lg & WB & C & DC);
          [reflexivity | exact F | reflexivity
          | unfold queue; simpl; rewrite length_app; simpl;
            unfold queue in R; lia
          | lia |]
    end.
    exists w'. split; [exact U|]. unfold queue in *. simpl in *.
    rewrite Q, <- app_assoc. by repeat split.
Qed.

(** X8. The loop of [udpReader] turns the datagrams at the head of the
    datagram queue into units on [readMessage] in the same order, one
    unit for each, as long as the queue has room; it sends nothing and
    leaves the write buffer alone. *)
Theorem udpReader_in_order (ds rest : list slice) (nows : list Z) (w : World) :
  buf (udpReceiver (self w)) = ds ++ rest ->
  Forall is_message ds ->
  chclosed (readMessage (self w)) = false ->
  (length (queue w) + length ds <= cap (readMessage (self w)))%nat ->
  length nows = length ds ->
  exists w',
    udpReader nows w = Continue w' /\
    queue w' = queue w ++ map udp_unit ds /\
    buf (udpReceiver (self w')) = rest /\
    log w' = log w /\
    writeBuffer (self w') = writeBuffer (self w).
Proof.
  intros B F O R N.
  destruct (udpReader_run ds rest nows w B F O R N)
    as (w' & U & Q & B' & Lg & WB & _).
  by exists w'.
Qed.

Lemma feed_open (ds : list slice) (w : World) :
  closed (self w) = false ->
  chclosed (udpReceiver (self w)) = false ->
  (length (buf (udpReceiver (self w))) + length ds
   <= cap (udpReceiver (self w)))%nat ->
  feed ds w
  = Ret tt (upd (set_udpReceiver
                   (Chan (buf (udpReceiver (self w)) ++ ds)
                      (cap (udpReceiver (self w))) false)) w).
Proof.
  revert w. induction ds as [|d ds IH]; intros w C O R.
  - simpl. rewrite app_nil_r. destruct w as [[] ? ?]. simpl in *.
    destruct udpReceiver0. simpl in *. by subst.
  - simpl in R. cbn [feed]. unfold writeReceivedUDP, send. rewrite C, O.
    rewrite (proj2 (Nat.ltb_lt _ _)) by lia.
    rewrite IH; simpl; rewrite ?length_app; simpl; try done; [|lia].
    by rewrite <- app_assoc.
Qed.

(** X9. [writeReceivedUDP] drops every datagram once the connection is
    closed; on an open connection the datagrams are appended to the
    datagram queue in order while there is room, and the call that
    finds the queue full blocks. *)
Theorem feed_behaviour (ds : list slice) (w : World) :
  (closed (self w) = true -> feed ds w = Ret tt w) /\
  (closed (self w) = false ->
   chclosed (udpReceiver (self w)) = false ->
   (length (buf (udpReceiver (self w))) + length ds
    <= cap (udpReceiver (self w)))%nat ->
   exists w', feed ds w = Ret tt w' /\
              buf (udpReceiver (self w')) = buf (udpReceiver (self w)) ++ ds /\
              queue w' = queue w /\ log w' = log w) /\
  (closed (self w) = false ->
   chclosed (udpReceiver (self w)) = false ->
   (cap (udpReceiver (self w)) < length (buf (udpReceiver (self w))) + length ds)%nat ->
   (length (buf (udpReceiver (self w))) <= cap (udpReceiver (self w)))%nat ->
   feed ds w = Block).
Proof.
  split; [|split].
  - intros C. induction ds as [|d ds IH]; [done|].
    cbn [feed]. unfold writeReceivedUDP. by rewrite C.
  - intros C O R. rewrite feed_open by done. eexists. by repeat split.
  - revert w. induction ds as [|d ds IH]; intros w C O F R.
    + simpl in F. lia.
    + cbn [feed]. unfold writeReceivedUDP, send. rewrite C, O.
      destruct (Nat.ltb_spec (length (buf (udpReceiver (self w))))
                  (cap (udpReceiver (self w)))) as [L|L]; [|done].
      apply IH; simpl; rewrite ?length_app; simpl; try done.
      * simpl in F. lia.
      * lia.
Qed.

(** X10. From the listener to the reader of the API: datagrams handed
    to [writeReceivedUDP], then decoded by [udpReader], are returned by
    [Read] in arrival order, each as its decoded unit; afterwards both
    queues are empty and the reader blocks waiting for the next
    datagram. *)
Theorem datagram_pipeline (ds : list slice) (nows : list Z) (w : World) :
  closed (self w) = false ->
  chclosed (udpReceiver (self w)) = false ->
  chclosed (readMessage (self w)) = false ->
  buf (udpReceiver (self w)) = [] -> queue w = [] ->
  (length ds <= cap (udpReceiver (self w)))%nat ->
  (length ds <= cap (readMessage (self w)))%nat ->
  Forall is_message ds ->
  length nows = length ds ->
  exists w1 w2 s,
    feed ds w = Ret tt w1 /\
    udpReader nows w1 = Continue w2 /\
    run (replicate (length ds) ARead) (boot w2) = Some s /\
    delivered s = map udp_unit ds /\
    queue (world s) = [] /\
    buf (udpReceiver (self (world s))) = [] /\
    udpReader_step 0 (world s) = Blocked.
Proof.
  intros C O OM B Q R1 R2 F N.
  rewrite feed_open by (rewrite ?B; simpl; done). rewrite B. simpl.
  match goal with
  | |- context [Ret tt ?w1] =>
      destruct (udpReader_run ds [] nows w1)
        as (w2 & U & Q2 & B2 & _ & _ & C2 & D2);
        [simpl; by rewrite app_nil_r | exact F | exact OM
        | unfold queue in *; simpl; rewrite Q; simpl; lia | exact N |];
      exists w1, w2
  end.
  unfold queue in *. simpl in *. rewrite Q in Q2. simpl in Q2.
  destruct (Reads_run (map udp_unit ds) [] (boot w2))
    as (s & R & D & Qs & _ & Cs & _ & _ & _ & _ & Us & _).
  { simpl. by rewrite C2. }
  { simpl. unfold queue. by rewrite Q2, app_nil_r. }
  rewrite length_map in R. exists s. split; [done|]. split; [exact U|].
  split; [exact R|]. split; [exact D|]. split; [exact Qs|].
  simpl in Us. split; [by rewrite Us|].
  unfold udpReader_step, recv. by rewrite Us, B2, D2.
Qed.

(** ** After Close, buffers and the gate *)

(** X11. Datagrams still on the datagram queue when [Close] runs are
    not discarded: the reader goes on decoding them and puts their units
    on [readMessage], and returns only when the queue is drained. No
    [Read] delivers these units: [Read] returns the end-of-stream
    signal. *)
Theorem udpReader_after_Close (now : Z) (w : World) (d : slice)
    (rest : list slice) :
  closed (self w) = true ->
  chclosed (udpReceiver (self w)) = true ->
  buf (udpReceiver (self w)) = d :: rest ->
  is_message d ->
  chclosed (readMessage (self w)) = false ->
  (length (queue w) < cap (readMessage (self w)))%nat ->
  exists w',
    udpReader_step now w = Continue w' /\
    queue w' = queue w ++ [udp_unit d] /\
    buf (udpReceiver (self w')) = rest /\
    Read w' = Ret (MError EOF) w' /\
    (rest = [] -> forall now', udpReader_step now' w' = Exit w').
Proof.
  intros C DC B M O R.
  rewrite (udpReader_step_message now w d rest B M O R).
  eexists. split; [reflexivity|]. split; [reflexivity|]. split; [reflexivity|].
  split.
  - unfold Read. simpl. by rewrite C.
  - intros -> now'. unfold udpReader_step, recv. simpl. by rewrite DC.
Qed.

(** X12. Every iteration of the UDP reader that completes has taken
    exactly one datagram off the datagram queue and has set
    [lastMessage] to the clock reading, keep-alive probes included. *)
Theorem udpReader_lastMessage (now : Z) (w w' : World) :
  udpReader_step now w = Continue w' ->
  lastMessage (self w') = now /\
  exists d, buf (udpReceiver (self w)) = d :: buf (udpReceiver (self w')).
Proof.
  unfold udpReader_step, recv, enqueue, send, Write. intros E.
  split_cases; split; try done; by eexists.
Qed.

Lemma Flush_open (io : option error) (w : World) :
  closed (self w) = false ->
  (String.eqb (transport (self w)) "udp" = true ->
   is_udp (conn (self w)) = true) ->
  Flush io w
  = Ret io (upd (set_writeBuffer [])
              (emit (if String.eqb (transport (self w)) "udp"
                     then EvWriteTo (address (self w)) (writeBuffer (self w))
                     else EvConnWrite (writeBuffer (self w))) w)).
Proof.
  intros C U. unfold Flush. rewrite C.
  destruct (String.eqb (transport (self w)) "udp"); [|done].
  by rewrite (U eq_refl).
Qed.

(** X13. On an open connection of either transport, [Flush] after any
    run of [Write] calls makes one transmission that carries whatever
    was in the buffer before, followed by the written slices in order:
    one datagram on UDP, one write on the stream socket otherwise. The
    buffer is empty afterwards, whatever the socket reported. *)
Theorem Flush_whole_buffer (bs : list (list byte)) (io : option error)
    (w : World) :
  closed (self w) = false ->
  (String.eqb (transport (self w)) "udp" = true ->
   is_udp (conn (self w)) = true) ->
  exists w',
    Flush io (Writes bs w) = Ret io w' /\
    log w'
    = log w ++
      [if String.eqb (transport (self w)) "udp"
       then EvWriteTo (address (self w)) (writeBuffer (self w) ++ concat bs)
       else EvConnWrite (writeBuffer (self w) ++ concat bs)] /\
    writeBuffer (self w') = [] /\
    queue w' = queue w /\ closed (self w') = false.
Proof.
  intros C U. rewrite (Writes_open bs w C).
  rewrite Flush_open by done. eexists. split; [reflexivity|]. simpl.
  by destruct (String.eqb (transport (self w)) "udp").
Qed.

(** X14. The reply to a keep-alive probe is not sent by the reader: it
    leaves with the next flush, in front of the bytes written next, in
    one datagram with them. *)
Theorem keepalive_reply_rides (now : Z) (w : World) (d : slice)
    (rest : list slice) (b : list byte) (io : option error) :
  closed (self w) = false ->
  String.eqb (transport (self w)) "udp" = true ->
  is_udp (conn (self w)) = true ->
  buf (udpReceiver (self w)) = d :: rest ->
  slice_bytes d = keepalive_probe ->
  exists w1 w2,
    udpReader_step now w = Continue w1 /\
    log w1 = log w /\
    Flush io (snd (Write b w1)) = Ret io w2 /\
    log w2
    = log w ++
      [EvWriteTo (address (self w)) (writeBuffer (self w) ++ keepalive_reply ++ b)].
Proof.
  intros C U S B K. rewrite (udpReader_step_recv now w d rest B). simpl.
  rewrite bool_decide_eq_true_2 by exact K.
  unfold Write. simpl. rewrite C. simpl.
  eexists _, _. split; [reflexivity|]. split; [reflexivity|].
  simpl. rewrite C. simpl.
  rewrite Flush_open; [|exact C|intros _; exact S]. split; [reflexivity|].
  simpl. by rewrite U, <- app_assoc.
Qed.

(** X15. [Write] never transmits and never touches the inbound queue
    or the [closed] flag: on an open connection a run of writes only
    appends to the buffer, on a closed one it changes nothing at all. *)
Theorem Writes_never_transmit (bs : list (list byte)) (w : World) :
  log (Writes bs w) = log w /\
  queue (Writes bs w) = queue w /\
  closed (self (Writes bs w)) = closed (self w) /\
  (closed (self w) = true -> Writes bs w = w) /\
  (closed (self w) = false ->
   writeBuffer (self (Writes bs w)) = writeBuffer (self w) ++ concat bs).
Proof.
  destruct (closed (self w)) eqn:C.
  - assert (Writes bs w = w) as ->.
    { unfold Writes. induction bs as [|b bs IH]; [done|].
      simpl. unfold Write at 2. by rewrite C. }
    by repeat split.
  - rewrite (Writes_open bs w C). by repeat split.
Qed.

(** X16. The gate is a plain flag. Locks are not counted: one [Unlock]
    undoes any number of [Lock] calls. [Read] and [Write] do not consult
    the gate: they behave the same whether or not it is locked. *)
Theorem gate_is_a_flag (w : World) :
  Unlock (Lock (Lock w)) = Unlock w /\
  Read (Lock w)
  = match Read w with
    | Ret m w' => Ret m (Lock w')
    | Block => Block
    | Panic => Panic
    end /\
  (forall b, Write b (Lock w) = (fst (Write b w), Lock (snd (Write b w)))).
Proof.
  split; [done|]. split.
  - unfold Read, Read_recv, recv. simpl.
    destruct (closed (self w)); [done|].
    destruct (buf (readMessage (self w))); [|done].
    by destruct (chclosed (readMessage (self w))).
  - intros b. unfold Write. simpl. by destruct (closed (self w)).
Qed.

(** ** The gate, the janitor, the TCP stream and Close *)

(** X17. While the gate is locked the dispatcher, waiting on it, takes
    nothing however often it is scheduled. The lock holder reads the
    units at the head of the queue in order; after [Unlock] the
    dispatcher resumes and returns the request that follows them. *)
Theorem lock_holder_then_dispatcher (ms rest : list message) (r : Request)
    (s : Sys) :
  dispatcher s = Some RRwait ->
  locked (self (world s)) = true ->
  closed (self (world s)) = false ->
  queue (world s) = ms ++ MRequest r :: rest ->
  (forall k, run (replicate k ADispatch) s = Some s) /\
  exists s',
    run (replicate (length ms) ARead
         ++ [AUnlock; ADispatch; ADispatch; ADispatch]) s = Some s' /\
    delivered s' = delivered s ++ ms /\
    returned s' = returned s ++ [inr r] /\
    dispatched s' = dispatched s ++ [MRequest r] /\
    queue (world s') = rest /\
    dispatcher s' = None.
Proof.
  intros D L C Q. split.
  - intros k. induction k as [|k IH]; [done|].
    cbn [replicate run exec]. rewrite D. simpl. rewrite L. simpl.
    rewrite app_nil_r, <- D.
    replace (MkSys _ _ _ _ _ _ _ _ _) with s by (by destruct s). exact IH.
  - destruct (Reads_run ms (MRequest r :: rest) s C Q)
      as (s1 & R & De & Q1 & _ & C1 & L1 & D1 & Re1 & Dd1 & _).
    rewrite run_app, R. unfold queue in Q1. rewrite D in D1.
    destruct s1 as [w1 d1 re1 je1 en1 de1 di1 eo1 rt1]. simpl in *.
    subst d1. simpl. unfold recv. simpl. rewrite Q1. simpl.
    eexists. split; [reflexivity|]. simpl.
    rewrite !app_nil_r. by rewrite De, Re1, Dd1.
Qed.

(** X18. A sweep of the janitor only removes entries: what is left is
    a sub-map of the table; sweeping again with the same readings
    removes nothing more; and an entry whose timestamp is not in the
    past of the reading, however far in the future, is kept. *)
Theorem sweep_only_removes (clock : string -> Z) (m : gmap string Z) :
  sweep clock m ⊆ m /\
  sweep clock (sweep clock m) = sweep clock m /\
  (forall b t, m !! b = Some t -> clock b <= t ->
     sweep clock m !! b = Some t).
Proof.
  split; [|split].
  - apply map_subseteq_spec. intros b t. rewrite sweep_lookup.
    destruct (m !! b) as [t'|]; [|done].
    by destruct (expired (clock b) t').
  - apply map_eq. intros b. rewrite !sweep_lookup.
    destruct (m !! b) as [t|]; [|done].
    destruct (expired (clock b) t) eqn:E; [done|]. by rewrite E.
  - intros b t L F. rewrite sweep_lookup, L.
    rewrite (proj2 (expired_false (clock b) t)); [done|].
    unfold Second. lia.
Qed.

(** X19. After a successful sniff read the decoder is given the stream
    from the sniffed bytes on, and the next iteration starts where the
    decoder stopped; when the decoder took fewer than three bytes, the
    three sniffed bytes are gone all the same. *)
Theorem tcp_stream_position (io : option error) (w : World) (b : list byte)
    (s0 : Socket) :
  ReadFull (conn (self w)) 3 = RFok b s0 ->
  chclosed (readMessage (self w)) = false ->
  (length (queue w) < cap (readMessage (self w)))%nat ->
  let rd := MkReader (rx (conn (self w))) (rx_end (conn (self w))) in
  let used := if bool_decide (b = SIP_prefix)
              then snd (ReadResponse rd) else snd (ReadRequest rd) in
  b = take 3 (rx (conn (self w))) /\
  exists w',
    tcpReader_step io w = Continue w' /\
    rx (conn (self w')) = drop (Nat.max 3 used) (rx (conn (self w))) /\
    rx_end (conn (self w')) = rx_end (conn (self w)).
Proof.
  intros R O Rm rd used. unfold tcpReader_step. rewrite R.
  unfold ReadFull in R.
  destruct (sock_closed (conn (self w))) eqn:SC; [discriminate|].
  destruct (Nat.leb_spec 3 (length (rx (conn (self w))))) as [L3|L3];
    [|repeat case_match; discriminate].
  injection R as <- <-. split; [done|].
  unfold tcp_decode, MultiReader, enqueue, send, queue in *. simpl.
  rewrite O, (proj2 (Nat.ltb_lt _ _) Rm), take_drop, bytes_Compare_eqb.
  subst used rd. rewrite length_take, Nat.min_l by lia.
  destruct (bool_decide (take 3 (rx (conn (self w))) = SIP_prefix)).
  - eexists. split; [reflexivity|]. simpl. rewrite drop_drop.
    split; [f_equal; lia|done].
  - eexists. split; [reflexivity|]. simpl. rewrite drop_drop.
    split; [f_equal; lia|done].
Qed.

(** X20. [Close] on an open TCP connection returns what the socket
    reported, and does not end the reader: the sniff read then fails
    with the closed-socket error, which is not an end of stream, so each
    iteration decodes a zeroed sniff buffer as a request and enqueues
    the result, until the queue is full and the reader blocks. *)
Theorem tcpReader_after_Close (io io' : option error) (w : World) :
  closed (self w) = false ->
  String.eqb (transport (self w)) "udp" = false ->
  exists w1,
    Close io w = Ret io w1 /\
    (forall w', tcpReader_step io' w1 <> Exit w') /\
    (chclosed (readMessage (self w)) = false ->
     (length (queue w) < cap (readMessage (self w)))%nat ->
     exists w2,
       tcpReader_step io' w1 = Continue w2 /\
       queue w2
       = queue w ++
         [request_unit
            (fst (ReadRequest (MkReader [x00; x00; x00] (Some ErrNetClosed))))]) /\
    (chclosed (readMessage (self w)) = false ->
     (cap (readMessage (self w)) <= length (queue w))%nat ->
     tcpReader_step io' w1 = Blocked).
Proof.
  intros C T. unfold Close. rewrite C. simpl. rewrite T.
  eexists. split; [reflexivity|].
  unfold tcpReader_step, ReadFull. simpl.
  change (bytes_Compare (fill3 []) SIP_prefix =? 0) with false.
  unfold tcp_decode, MultiReader, enqueue, send, queue. simpl.
  change (bytes_Compare (fill3 []) SIP_prefix =? 0) with false. simpl.
  split; [|split].
  - intros w'. repeat case_match; discriminate.
  - intros O R. rewrite O, (proj2 (Nat.ltb_lt _ _) R).
    eexists. by split.
  - intros O R. rewrite O. by rewrite (proj2 (Nat.ltb_ge _ _) R).
Qed.

(** X21. [Close] creates no listener and removes none, and in a pool
    it changes nothing but the entry under the connection's own address
    in its own listener. *)
Theorem Close_other_entries (io r : option error) (w w1 : World) :
  Close io w = Ret r w1 ->
  forall l,
    match listeners w !! l with
    | Some L =>
        exists L', listeners w1 !! l = Some L' /\
          forall a, listener (self w) <> Some l \/ a <> address (self w) ->
                    udpPool L' !! a = udpPool L !! a
    | None => listeners w1 !! l = None
    end.
Proof.
  unfold Close, deregister, close. intros E l.
  destruct (closed (self w)); [injection E as _ <-|].
  { destruct (listeners w !! l) as [L|]; [|done]. by exists L. }
  simpl in E. destruct (String.eqb (transport (self w)) "udp");
    [|injection E as _ <-; simpl;
      destruct (listeners w !! l) as [L|]; [by exists L|done]].
  destruct (listener (self w)) as [l0|] eqn:HL; simpl in E;
    destruct (chclosed (udpReceiver (self w))); try discriminate;
    injection E as _ <-; simpl.
  - destruct (decide (l0 = l)) as [->|N].
    + rewrite lookup_alter_eq. destruct (listeners w !! l) as [L|]; [|done].
      eexists. split; [reflexivity|]. simpl. intros a [Ha|Ha]; [done|].
      by apply lookup_delete_ne.
    + rewrite lookup_alter_ne by done.
      destruct (listeners w !! l) as [L|]; [by exists L|done].
  - destruct (listeners w !! l) as [L|]; [by exists L|done].
Qed.

(** X22. The first [Close] on UDP returns nil; on TCP it returns the
    error of the socket close, and the connection is closed even when
    that close failed. It leaves the write buffer and the inbound queue
    as they were, and later calls return nil. *)
Theorem Close_result (io : option error) (w : World) :
  closed (self w) = false ->
  (String.eqb (transport (self w)) "udp" = true ->
   chclosed (udpReceiver (self w)) = false) ->
  exists w1,
    Close io w
    = Ret (if String.eqb (transport (self w)) "udp" then None else io) w1 /\
    closed (self w1) = true /\
    writeBuffer (self w1) = writeBuffer (self w) /\
    queue w1 = queue w /\
    forall io2, Close io2 w1 = Ret None w1.
Proof.
  intros C O. unfold Close at 1. unfold deregister, close. rewrite C. simpl.
  destruct (String.eqb (transport (self w)) "udp").
  - destruct (listener (self w)); simpl; rewrite (O eq_refl);
      eexists; (split; [reflexivity|]); repeat split;
      try (intros io2; by apply Close_closed).
  - eexists. split; [reflexivity|]. repeat split;
      try (intros io2; by apply Close_closed).
Qed.

(** X23. When the sniff read of [tcpReader] meets the end of the stream,
    the reader closes the connection and returns while the units it
    enqueued before are still on [readMessage]; from then on [Read] and
    [readRequest] return the end-of-stream signal and do not deliver
    those units. *)
Theorem peer_close_strands_units (io : option error) (w : World)
    (b : list byte) (e : error) (s0 : Socket) :
  String.eqb (transport (self w)) "udp" = false ->
  ReadFull (conn (self w)) 3 = RFerr b e s0 ->
  e = EOF \/ e = ErrUnexpectedEOF ->
  exists w',
    tcpReader_step io w = Exit w' /\
    queue w' = queue w /\
    Read w' = Ret (MError EOF) w' /\
    forall fuel, readRequest (S fuel) w' = RRreturn (inl EOF) w'.
Proof.
  intros T R E. unfold tcpReader_step. rewrite R.
  assert (is_eof e = true) as -> by (by destruct E as [-> | ->]).
  destruct (Close_tcp_returns io (upd (set_conn s0) w) T)
    as (r & w' & HC & C & Q).
  rewrite HC. exists w'. split; [reflexivity|]. split; [exact Q|]. split.
  - unfold Read. by rewrite C.
  - intros fuel. by apply readRequest_closed.
Qed.

End More.

(** * Instances of the further properties *)

Ltac sample_message :=
  split; [intros E; vm_compute in E; discriminate E
         | split; [simpl; lia | unfold slice_wf, slice_cap; simpl; lia]].

Ltac sample_sound :=
  unfold sound, queue; simpl; repeat split;
  first [reflexivity | lia | (intros E; discriminate E)].

Lemma readRequest_skips_responses_witness :
  exists w',
    readRequest 12 queued_world
    = RRreturn (inr (line "INVITE a") : error + @Request line_parser) w' /\
    queue w' = [req_b] /\
    log w' = [EvPrintln warning; EvPrintln warning] /\
    closed (self w') = false /\ locked (self w') = false.
Proof.
  exact (readRequest_skips_responses (P:=line_parser)
           [line "SIP/2.0 200 OK"; line "SIP/2.0 200 OK"] req_a
           (inr (line "INVITE a")) [req_b] 0 queued_world
           eq_refl eq_refl eq_refl eq_refl).
Defined.

Lemma readRequest_waits_while_locked_witness :
  readRequest 5 (Lock queued_world) = RRgoto RRwait (Lock queued_world).
Proof.
  exact (readRequest_waits_while_locked 4 (Lock queued_world) eq_refl eq_refl).
Defined.

Lemma readRequest_responses_only_witness :
  readRequest 7 (udp_sample [] [resp_ok]) = RRblock.
Proof.
  exact (readRequest_responses_only (P:=line_parser) [line "SIP/2.0 200 OK"] 0
           (udp_sample [] [resp_ok]) eq_refl eq_refl eq_refl eq_refl).
Defined.

Lemma run_same_setup_witness :
  Transport (world late_sys) = "udp" /\
  Addr (world late_sys) = "192.0.2.7:5060" /\
  same_setup udp_closed (world late_sys).
Proof.
  apply (run_same_setup late_steps (set_world udp_closed (boot udp_world))
           late_sys).
  vm_compute. reflexivity.
Defined.

Lemma run_sound_witness : sound (world late_sys).
Proof.
  apply (run_sound late_steps (set_world udp_closed (boot udp_world)) late_sys).
  - sample_sound.
  - vm_compute. reflexivity.
Defined.

Lemma panic_conditions_witness :
  chclosed (readMessage (self (udp_sample [dgram_a] []))) = false /\
  (forall b, writeReceivedUDP b (udp_sample [dgram_a] []) <> Panic /\
             writeReceivedUDP_send b closed_pending = Panic) /\
  (forall io',
     Close_step io' CLtest (udp_sample [dgram_a] [])
     = CLgoto CLset (udp_sample [dgram_a] []) /\
     Close_step io' CLchan closed_pending = CLpanic).
Proof.
  split; [reflexivity|].
  destruct (panic_conditions (udp_sample [dgram_a] []) eq_refl)
    as (_ & _ & H & _).
  apply (H None None closed_pending); vm_compute; reflexivity.
Defined.

Lemma Reads_in_order_witness :
  exists s',
    run [ARead] (boot (udp_sample [] [req_a; req_b])) = Some s' /\
    delivered s' = [req_a] /\
    queue (world s') = [req_b] /\
    eofs s' = 0%nat.
Proof.
  exact (Reads_in_order [req_a] [req_b] (boot (udp_sample [] [req_a; req_b]))
           eq_refl eq_refl).
Defined.

Lemma udpReader_in_order_witness :
  exists w',
    udpReader [1; 2] (udp_sample [dgram_ok; dgram_a] []) = Continue w' /\
    queue w' = [resp_ok; req_a] /\
    buf (udpReceiver (self w')) = [] /\
    log w' = [] /\
    writeBuffer (self w') = [].
Proof.
  apply (udpReader_in_order [dgram_ok; dgram_a] [] [1; 2]
           (udp_sample [dgram_ok; dgram_a] []) eq_refl).
  - apply Forall_cons. split; [sample_message|].
    apply Forall_cons. split; [sample_message|]. apply Forall_nil. exact I.
  - reflexivity.
  - simpl. lia.
  - reflexivity.
Defined.

Lemma feed_behaviour_witness :
  feed [dgram_ok; dgram_a] udp_closed = Ret tt udp_closed /\
  exists w', feed [dgram_ok; dgram_a] udp_world = Ret tt w' /\
             buf (udpReceiver (self w')) = [dgram_ok; dgram_a] /\
             queue w' = [] /\ log w' = [].
Proof.
  split.
  - exact (proj1 (feed_behaviour [dgram_ok; dgram_a] udp_closed) eq_refl).
  - apply (proj1 (proj2 (feed_behaviour [dgram_ok; dgram_a] udp_world)));
      [reflexivity | reflexivity | simpl; lia].
Defined.

Lemma datagram_pipeline_witness :
  exists w1 w2 s,
    feed [dgram_ok; dgram_a] udp_world = Ret tt w1 /\
    udpReader [1; 2] w1 = Continue w2 /\
    run [ARead; ARead] (boot w2) = Some s /\
    delivered s = [resp_ok; req_a] /\
    queue (world s) = [] /\
    buf (udpReceiver (self (world s))) = [] /\
    udpReader_step 0 (world s) = Blocked.
Proof.
  apply (datagram_pipeline [dgram_ok; dgram_a] [1; 2] udp_world);
    try reflexivity; try (simpl; lia).
  apply Forall_cons. split; [sample_message|].
  apply Forall_cons. split; [sample_message|]. apply Forall_nil. exact I.
Defined.

Lemma udpReader_after_Close_witness :
  exists w',
    udpReader_step 3 closed_pending = Continue w' /\
    queue w' = [req_a] /\
    buf (udpReceiver (self w')) = [] /\
    Read w' = Ret (MError EOF) w' /\
    (([] : list slice) = [] -> forall now', udpReader_step now' w' = Exit w').
Proof.
  apply (udpReader_after_Close 3 closed_pending dgram_a []);
    try reflexivity; [sample_message | simpl; lia].
Defined.

Lemma udpReader_lastMessage_witness :
  lastMessage (self after_probe) = 7 /\
  exists d, [slice_of keepalive_probe] = d :: buf (udpReceiver (self after_probe)).
Proof.
  exact (udpReader_lastMessage 7 (udp_sample [slice_of keepalive_probe] [])
           after_probe eq_refl).
Defined.

Lemma Flush_whole_buffer_witness :
  exists w',
    Flush (Some ErrClosedPipe)
      (Writes [bytes_of "A"; bytes_of "B"] (tcp_world [] None))
    = Ret (Some ErrClosedPipe) w' /\
    log w' = [EvConnWrite (bytes_of "AB")] /\
    writeBuffer (self w') = [] /\
    queue w' = [] /\ closed (self w') = false.
Proof.
  apply (Flush_whole_buffer [bytes_of "A"; bytes_of "B"] (Some ErrClosedPipe)
           (tcp_world [] None) eq_refl).
  intros E. discriminate E.
Defined.

Lemma keepalive_reply_rides_witness :
  exists w1 w2,
    udpReader_step 1 (udp_sample [slice_of keepalive_probe] []) = Continue w1 /\
    log w1 = [] /\
    Flush None (snd (Write (bytes_of "OPTIONS") w1)) = Ret None w2 /\
    log w2 = [EvWriteTo "192.0.2.7:5060" (keepalive_reply ++ bytes_of "OPTIONS")].
Proof.
  exact (keepalive_reply_rides 1 (udp_sample [slice_of keepalive_probe] [])
           (slice_of keepalive_probe) [] (bytes_of "OPTIONS") None
           eq_refl eq_refl eq_refl eq_refl eq_refl).
Defined.

Lemma Writes_never_transmit_witness :
  Writes [bytes_of "A"; bytes_of "B"] udp_closed = udp_closed /\
  writeBuffer (self (Writes [bytes_of "A"; bytes_of "B"] udp_world))
  = bytes_of "AB".
Proof.
  destruct (Writes_never_transmit [bytes_of "A"; bytes_of "B"] udp_closed)
    as (_ & _ & _ & A & _).
  destruct (Writes_never_transmit [bytes_of "A"; bytes_of "B"] udp_world)
    as (_ & _ & _ & _ & B).
  exact (conj (A eq_refl) (B eq_refl)).
Defined.

Lemma lock_holder_then_dispatcher_witness :
  (forall k, run (replicate k ADispatch) gate_sys = Some gate_sys) /\
  exists s',
    run [ARead; AUnlock; ADispatch; ADispatch; ADispatch] gate_sys = Some s' /\
    delivered s' = [resp_ok] /\
    returned s' = [inr (line "INVITE a")] /\
    dispatched s' = [req_a] /\
    queue (world s') = [req_b] /\
    dispatcher s' = None.
Proof.
  exact (lock_holder_then_dispatcher (P:=line_parser) [resp_ok] [req_b]
           (line "INVITE a") gate_sys eq_refl eq_refl eq_refl eq_refl).
Defined.

Lemma sweep_only_removes_witness :
  sweep (fun _ => 0) {[ "z9hG4bK123" := 5 * Second ]} !! "z9hG4bK123"
  = Some (5 * Second).
Proof.
  apply (proj2 (proj2 (sweep_only_removes (fun _ => 0)
                         {[ "z9hG4bK123" := 5 * Second ]}))).
  - reflexivity.
  - unfold Second. lia.
Defined.

Lemma tcp_stream_position_witness :
  exists w',
    tcpReader_step None (tcp_world two_messages None) = Continue w' /\
    rx (conn (self w')) = line "INVITE a" /\
    rx_end (conn (self w')) = None.
Proof.
  apply (tcp_stream_position None (tcp_world two_messages None) (bytes_of "SIP")
           (sample_socket false (drop 3 two_messages) None) eq_refl eq_refl).
  simpl. lia.
Defined.

Lemma tcpReader_after_Close_witness :
  exists w1,
    Close None (tcp_world [] None) = Ret None w1 /\
    (forall w', tcpReader_step None w1 <> Exit w') /\
    (false = false -> (0 < 4)%nat ->
     exists w2,
       tcpReader_step None w1 = Continue w2 /\
       queue w2 = [MError (ErrOther "malformed")]) /\
    (false = false -> (4 <= 0)%nat -> tcpReader_step None w1 = Blocked).
Proof.
  exact (tcpReader_after_Close None None (tcp_world [] None) eq_refl eq_refl).
Defined.

Lemma Close_other_entries_witness :
  exists L',
    listeners udp_closed !! 0%nat = Some L' /\
    forall a, Some 0%nat <> Some 0%nat \/ a <> "192.0.2.7:5060" ->
              udpPool L' !! a
              = ({[ "192.0.2.7:5060" := 1%nat ]} : gmap string nat) !! a.
Proof.
  exact (Close_other_entries None None udp_world udp_closed eq_refl 0%nat).
Defined.

Lemma Close_result_witness :
  exists w1,
    Close (Some (ErrOther "already closed")) (tcp_world [] None)
    = Ret (Some (ErrOther "already closed")) w1 /\
    closed (self w1) = true /\
    writeBuffer (self w1) = [] /\
    queue w1 = [] /\
    forall io2, Close io2 w1 = Ret None w1.
Proof.
  apply (Close_result (Some (ErrOther "already closed")) (tcp_world [] None)
           eq_refl).
  intros E. discriminate E.
Defined.

Lemma peer_close_strands_units_witness :
  exists w',
    tcpReader_step None tcp_queued = Exit w' /\
    queue w' = [resp_ok] /\
    Read w' = Ret (MError EOF) w' /\
    forall fuel, readRequest (S fuel) w' = RRreturn (inl EOF) w'.
Proof.
  apply (peer_close_strands_units None tcp_queued [] EOF
           (sample_socket false [] (Some EOF)) eq_refl eq_refl).
  by left.
Defined.

End sipnet.
